(** * uwasa: map member calls, from compiler to VM

    The repository patches two Go compiler/VM pairs of the uwasa rule
    engine.  The Go text carried by the patch scripts is the program that
    is modelled here:

    - [fix_neo_compiler_v2.py]: [NeoCompiler.parseMemberCallExpression];
    - [reapply_map_opt.py]: the [OpMapGetConst] and [NeoOpMapGetConst]
      handlers of the two VM loops, and the [MemberCallExpression] fast
      path of [VMCompiler.walk].

    Go integers are carried by [Z], Go strings by [string], slices by
    [list], [map[string]any] by [gmap string any]. *)

From Stdlib Require Import ZArith String List Lia.
From stdpp Require Import base option list strings gmap.

Local Open Scope string_scope.
Local Open Scope Z_scope.
Local Set Warnings "-register-all".

(** ** Runtime values *)

(** Discriminant of the tagged runtime value.  The six names below are the
    ones the Go text uses; [ValOther] stands for every further discriminant
    of the engine. *)
Inductive ValueType : Type :=
| ValNil | ValInt | ValFloat | ValString | ValBool | ValMap
| ValOther (tag : nat).

Definition ValueType_eqb (a b : ValueType) : bool :=
  match a, b with
  | ValNil, ValNil | ValInt, ValInt | ValFloat, ValFloat
  | ValString, ValString | ValBool, ValBool | ValMap, ValMap => true
  | ValOther m, ValOther n => Nat.eqb m n
  | _, _ => false
  end.

(** A Go [any]: the dynamic types the handlers switch on, a map
    ([map[string]any]), and [AnyOther] for every other dynamic type.
    A [float64] is carried by its IEEE-754 bit pattern. *)
Inductive any : Type :=
| AnyNil
| AnyInt64 (v : Z)
| AnyInt (v : Z)
| AnyFloat64 (bits : Z)
| AnyString (v : string)
| AnyBool (v : bool)
| AnyMap (m : gmap string any)
| AnyOther (tag : nat).

(** [type Value struct { Type; Num uint64; Str string; Ptr any }]. *)
Record Value : Type := mkValue {
  VType : ValueType;
  Num : Z;
  Str : string;
  Ptr : any
}.

(** A composite literal [Value{Type: t, ...}]: fields left out are zero. *)
Definition Value_Num (t : ValueType) (n : Z) : Value :=
  {| VType := t; Num := n; Str := ""; Ptr := AnyNil |}.
Definition Value_Str (t : ValueType) (s : string) : Value :=
  {| VType := t; Num := 0; Str := s; Ptr := AnyNil |}.
Definition Value_Type (t : ValueType) : Value :=
  {| VType := t; Num := 0; Str := ""; Ptr := AnyNil |}.

Definition two64 : Z := 2 ^ 64.

(** [uint64(v)] of a signed integer wraps modulo 2^64. *)
Definition uint64 (v : Z) : Z := v mod two64.

(** [int64(v)] of a Go [int] (at most 64 bits wide) keeps the number. *)
Definition int64 (v : Z) : Z := v.

(** [math.Float64bits]: the bit pattern of the float, as a [uint64]. *)
Definition Float64bits (bits : Z) : Z := bits mod two64.

(** Slice indexing [s[i]] with a Go [int] index: [None] is the
    index-out-of-range panic. *)
Definition index_Z {A : Type} (s : list A) (i : Z) : option A :=
  if i <? 0 then None else s !! Z.to_nat i.

(** [m[k]] on a Go map never fails: an absent key reads as the zero value
    of [any], the nil interface. *)
Definition map_index (m : gmap string any) (k : string) : any :=
  default AnyNil (m !! k).

(** How one handler of the VM loop ends. *)
Inductive outcome : Type :=
| Continue                      (* falls out of the switch: next instruction *)
| Return_err (msg : string)     (* [return nil, fmt.Errorf(msg)] *)
| Go_panic (msg : string).      (* run-time panic *)

Definition panic_index : string := "index out of range".
Definition panic_conversion : string := "interface conversion".

Module VMLoop.
Section Handlers.

(** Helpers of the engine that the patch calls and does not define. *)
Variable FromInterface : any -> Value.
Variable boolToUint64 : bool -> Z.

(** The type switch shared, as text, by both handlers: the value that
    is stored through [obj]. *)
Definition plain_switch (val : any) : Value :=
  match val with
  | AnyInt64 v => Value_Num ValInt (uint64 v)
  | AnyInt v => Value_Num ValInt (uint64 (int64 v))
  | AnyFloat64 v => Value_Num ValFloat (Float64bits v)
  | AnyString v => Value_Str ValString v
  | AnyBool v => Value_Num ValBool (boolToUint64 v)
  | AnyNil => Value_Type ValNil
  | v => FromInterface v
  end.

(** [case OpMapGetConst:] of vm.go (reapply_map_opt.py, lines 27-40). *)
Definition exec_OpMapGetConst
    (consts stack : list Value) (sp Arg : Z) : list Value * outcome :=
  match index_Z stack sp with                       (* obj := &stack[sp] *)
  | None => (stack, Go_panic panic_index)
  | Some obj =>
    if negb (ValueType_eqb (VType obj) ValMap)
    then (stack, Return_err "MGETC: not a map")
    else
      match Ptr obj with                    (* obj.Ptr.(map[string]any) *)
      | AnyMap m =>
        match index_Z consts Arg with               (* consts[inst.Arg] *)
        | None => (stack, Go_panic panic_index)
        | Some k =>
          let val := map_index m (Str k) in
          (<[Z.to_nat sp := plain_switch val]> stack, Continue)
        end
      | _ => (stack, Go_panic panic_conversion)
      end
  end.

(** Modelled from the spec: [pConsts] is set outside the patched text;
    the spec has the handler dereference the constant pool at the
    operand, so [pConsts] is the address of slot 0 of [consts].  The
    pointer arithmetic is unchecked: inside the pool it reads the slot,
    outside it reads whatever [beyond] the pool lies in memory. *)
Definition unsafe_slot (consts : list Value) (beyond : Z -> Value)
    (Arg : Z) : Value :=
  match index_Z consts Arg with
  | Some k => k
  | None => beyond Arg
  end.

(** The type switch of the Neo handler. *)
Definition neo_switch (val : any) : Value :=
  match val with
  | AnyInt64 v => Value_Num ValInt (uint64 v)
  | AnyInt v => Value_Num ValInt (uint64 (int64 v))
  | AnyFloat64 v => Value_Num ValFloat (Float64bits v)
  | AnyString v => Value_Str ValString v
  | AnyBool v => Value_Num ValBool (boolToUint64 v)
  | AnyNil => Value_Type ValNil
  | v => FromInterface v
  end.

(** [case NeoOpMapGetConst:] of neoex_vm.go (reapply_map_opt.py,
    lines 11-24). *)
Definition exec_NeoOpMapGetConst
    (consts : list Value) (beyond : Z -> Value)
    (stack : list Value) (sp Arg : Z) : list Value * outcome :=
  match index_Z stack sp with                       (* obj := &stack[sp] *)
  | None => (stack, Go_panic panic_index)
  | Some obj =>
    if negb (ValueType_eqb (VType obj) ValMap)
    then (stack, Return_err "MGETC: not a map")
    else
      match Ptr obj with                    (* obj.Ptr.(map[string]any) *)
      | AnyMap m =>
        let k := unsafe_slot consts beyond Arg in
        let val := map_index m (Str k) in
        (<[Z.to_nat sp := neo_switch val]> stack, Continue)
      | _ => (stack, Go_panic panic_conversion)
      end
  end.

End Handlers.
End VMLoop.

(** ** Results of compiler functions *)

(** Why a compiler function stopped short of its result. *)
Inductive failure : Type :=
| Error (msg : string)       (* a Go [error], from [fmt.Errorf] *)
| GoPanic (msg : string)     (* a run-time panic *)
| OutOfFuel.                 (* the model's loop budget ran out *)

(** A Go return [(T, error)]; the [T] returned next to an error is the
    zero struct and is not kept. *)
Inductive result (A : Type) : Type :=
| Ok (a : A)
| Abort (f : failure).
Arguments Ok {A} a.
Arguments Abort {A} f.

(** ** The Neo compiler (neoex_compiler.go) *)

Module Neo.

(** Token kinds: the four named in the Go text, and the further kinds the
    token stream supplies. *)
Inductive TokenType : Type :=
| TokenIdent | TokenLParen | TokenRParen | TokenComma
| TokenDot | TokenString | TokenNumber | TokenEOF
| TokenOther (tag : nat).

Definition TokenType_eqb (a b : TokenType) : bool :=
  match a, b with
  | TokenIdent, TokenIdent | TokenLParen, TokenLParen
  | TokenRParen, TokenRParen | TokenComma, TokenComma
  | TokenDot, TokenDot | TokenString, TokenString
  | TokenNumber, TokenNumber | TokenEOF, TokenEOF => true
  | TokenOther m, TokenOther n => Nat.eqb m n
  | _, _ => false
  end.

Record Token : Type := mkToken { TType : TokenType; Literal : string }.

(** Opcodes of the Neo VM: the six named in the Go text, the push of a
    pooled literal, and the rest of the instruction set. *)
Inductive Opcode : Type :=
| NeoOpGetGlobal | NeoOpMapGetConst | NeoOpMapGet | NeoOpMapSet
| NeoOpMapHas | NeoOpMapDel | NeoOpPush
| NeoOpOther (tag : nat).

Definition Opcode_eqb (a b : Opcode) : bool :=
  match a, b with
  | NeoOpGetGlobal, NeoOpGetGlobal | NeoOpMapGetConst, NeoOpMapGetConst
  | NeoOpMapGet, NeoOpMapGet | NeoOpMapSet, NeoOpMapSet
  | NeoOpMapHas, NeoOpMapHas | NeoOpMapDel, NeoOpMapDel
  | NeoOpPush, NeoOpPush => true
  | NeoOpOther m, NeoOpOther n => Nat.eqb m n
  | _, _ => false
  end.

Record Instruction : Type := mkInstruction { Op : Opcode; Arg : Z }.

Record compilationValue : Type := mkCV { isConst : bool; val : Value }.

(** The compiler object: the two buffers it appends to, the two tokens it
    looks at, and the tokens its lexer has still to deliver. *)
Record NeoCompiler : Type := mkCompiler {
  instructions : list Instruction;
  constants : list Value;
  curToken : Token;
  peekToken : Token;
  input : list Token
}.

Definition EOF : Token := {| TType := TokenEOF; Literal := "" |}.

(** Modelled from the spec: [nextToken] is not in the patch; the token
    stream exposes the current and the next token and an advance
    operation.  Past the last token the lexer keeps delivering [EOF]. *)
Definition nextToken (c : NeoCompiler) : NeoCompiler :=
  {| instructions := instructions c;
     constants := constants c;
     curToken := peekToken c;
     peekToken := hd EOF (input c);
     input := tl (input c) |}.

(** Modelled from the spec: [emit] is not in the patch; it appends one
    instruction to the buffer. *)
Definition emit (op : Opcode) (arg : Z) (c : NeoCompiler) : NeoCompiler :=
  {| instructions := instructions c ++ [{| Op := op; Arg := arg |}];
     constants := constants c;
     curToken := curToken c;
     peekToken := peekToken c;
     input := input c |}.

(** Modelled from the spec: [addConstant] is not in the patch; it appends
    to the pool, without deduplication, and returns the new index. *)
Definition addConstant (v : Value) (c : NeoCompiler) : NeoCompiler * Z :=
  ({| instructions := instructions c;
      constants := constants c ++ [v];
      curToken := curToken c;
      peekToken := peekToken c;
      input := input c |},
   Z.of_nat (length (constants c))).

(** Modelled from the spec: [emitPush] is not in the patch; it emits a
    push-literal instruction whose operand is a pool index allocated for
    the value. *)
Definition emitPush (v : Value) (c : NeoCompiler) : NeoCompiler :=
  let (c, i) := addConstant v c in emit NeoOpPush i c.

Definition subject_msg : string :=
  "member call subject must be an identifier".

(** The tokens that the compiler has not yet made current: the next token,
    unless it is the end of the stream, and those behind it. *)
Definition tokensLeft (c : NeoCompiler) : nat :=
  (length (input c)
   + (if TokenType_eqb (TType (peekToken c)) TokenEOF then 0 else 1))%nat.

(** How many instructions of a sequence carry a given opcode. *)
Definition countOp (op : Opcode) (l : list Instruction) : nat :=
  length (List.filter (fun i => Opcode_eqb (Op i) op) l).

Section Compiler.

(** The discriminant numbered zero in the engine's declaration, which
    the patch does not show: the [Type] of a zero [Value]. *)
Variable zeroType : ValueType.
(** How [%s] prints a token kind. *)
Variable TokenType_text : TokenType -> string.
(** [c.parseExpression(LOWEST)], the precedence parser of the compiler:
    the member-call compiler calls it once per argument. *)
Variable parseExpression :
  NeoCompiler -> NeoCompiler * result compilationValue.

Definition Value_zero : Value := Value_Type zeroType.

(** [compilationValue{isConst: false}], what a compiled call returns. *)
Definition on_stack : compilationValue :=
  {| isConst := false; val := Value_zero |}.

(** Lines 37-52: [for c.peekToken.Type == TokenComma { ... }].  One unit
    of [fuel] pays for one turn of the loop. *)
Fixpoint argLoop (fuel : nat) (c : NeoCompiler)
    (firstArgConst : bool) (firstArgVal : Value) (numArgs : Z)
    : NeoCompiler * result (Z * bool * Value) :=
  if negb (TokenType_eqb (TType (peekToken c)) TokenComma)
  then (c, Ok (numArgs, firstArgConst, firstArgVal))
  else
    match fuel with
    | O => (c, Abort OutOfFuel)
    | S fuel' =>
      let (c, firstArgConst) :=
        if firstArgConst
        then (emitPush firstArgVal c, false)
        else (c, firstArgConst) in
      let c := nextToken c in
      let c := nextToken c in
      match parseExpression c with
      | (c, Abort f) => (c, Abort f)
      | (c, Ok val0) =>
        let c := if isConst val0 then emitPush (val val0) c else c in
        argLoop fuel' c firstArgConst firstArgVal (numArgs + 1)
      end
    end.

(** Lines 25-53: the argument list, up to the closing parenthesis. *)
Definition parseArguments (fuel : nat) (c : NeoCompiler)
    : NeoCompiler * result (Z * bool * Value) :=
  let numArgs := 0 in
  if negb (TokenType_eqb (TType (peekToken c)) TokenRParen)
  then
    let c := nextToken c in
    match parseExpression c with
    | (c, Abort f) => (c, Abort f)
    | (c, Ok val0) => argLoop fuel c (isConst val0) (val val0) (numArgs + 1)
    end
  else (c, Ok (numArgs, false, Value_zero)).

(** Line 9: [c.instructions[len(c.instructions)-1]]. *)
Definition lastInst (c : NeoCompiler) : option Instruction :=
  index_Z (instructions c) (Z.of_nat (length (instructions c)) - 1).

(** Lines 5-57: subject checks, method name, argument list. *)
Definition parseCallHead (fuel : nat) (c : NeoCompiler)
    (left : compilationValue)
    : NeoCompiler * result (string * Z * bool * Value) :=
  if isConst left then (c, Abort (Error subject_msg))
  else
    match lastInst c with
    | None => (c, Abort (GoPanic panic_index))
    | Some lastInst =>
      if negb (Opcode_eqb (Op lastInst) NeoOpGetGlobal)
      then (c, Abort (Error subject_msg))
      else
        let c := nextToken c in
        if negb (TokenType_eqb (TType (curToken c)) TokenIdent)
        then (c, Abort (Error "expected method name after '.'"))
        else
          let method := Literal (curToken c) in
          if negb (TokenType_eqb (TType (peekToken c)) TokenLParen)
          then (c, Abort (Error "expected '(' after method name"))
          else
            let c := nextToken c in
            match parseArguments fuel c with
            | (c, Abort f) => (c, Abort f)
            | (c, Ok (numArgs, firstArgConst, firstArgVal)) =>
              if negb (TokenType_eqb (TType (peekToken c)) TokenRParen)
              then (c, Abort (Error ("expected ')', got " ++
                                     TokenType_text (TType (peekToken c)))))
              else
                (nextToken c,
                 Ok (method, numArgs, firstArgConst, firstArgVal))
            end
    end.

(** Lines 59-102: [switch method { ... }] and the final return. *)
Definition emitMethod (method : string) (numArgs : Z)
    (firstArgConst : bool) (firstArgVal : Value) (c : NeoCompiler)
    : NeoCompiler * result compilationValue :=
  if String.eqb method "get" then
    if negb (numArgs =? 1)
    then (c, Abort (Error "get expects 1 argument"))
    else if firstArgConst && ValueType_eqb (VType firstArgVal) ValString
    then
      let (c, i) := addConstant firstArgVal c in
      (emit NeoOpMapGetConst i c, Ok on_stack)
    else
      let c := if firstArgConst then emitPush firstArgVal c else c in
      (emit NeoOpMapGet 0 c, Ok on_stack)
  else if String.eqb method "set" then
    let c := if firstArgConst then emitPush firstArgVal c else c in
    if negb (numArgs =? 2)
    then (c, Abort (Error "set expects 2 arguments"))
    else (emit NeoOpMapSet 0 c, Ok on_stack)
  else if String.eqb method "has" then
    let (c, firstArgConst) :=
      if firstArgConst
      then (emitPush firstArgVal c, false)
      else (c, firstArgConst) in
    if negb (numArgs =? 1)
    then (c, Abort (Error "has expects 1 argument"))
    else (emit NeoOpMapHas 0 c, Ok on_stack)
  else if String.eqb method "del" then
    let (c, firstArgConst) :=
      if firstArgConst
      then (emitPush firstArgVal c, false)
      else (c, firstArgConst) in
    if negb (numArgs =? 1)
    then (c, Abort (Error "del expects 1 argument"))
    else (emit NeoOpMapDel 0 c, Ok on_stack)
  else (c, Abort (Error ("unknown map method: " ++ method))).

(** [func (c *NeoCompiler) parseMemberCallExpression(left)]. *)
Definition parseMemberCallExpression (fuel : nat) (c : NeoCompiler)
    (left : compilationValue) : NeoCompiler * result compilationValue :=
  match parseCallHead fuel c left with
  | (c, Abort f) => (c, Abort f)
  | (c, Ok (method, numArgs, firstArgConst, firstArgVal)) =>
    emitMethod method numArgs firstArgConst firstArgVal c
  end.

(** *** The argument loop, one program point at a time

    The same lines 37-52, cut at the places where the number of
    constants the compiler still holds back can change. *)
Inductive loopPoint : Type :=
| LoopTest (c : NeoCompiler) (firstArgConst : bool)
           (firstArgVal : Value) (numArgs : Z)          (* line 37 *)
| Advance (c : NeoCompiler) (firstArgConst : bool)
          (firstArgVal : Value) (numArgs : Z)           (* line 42 *)
| Parsed (c : NeoCompiler) (firstArgConst : bool)
         (firstArgVal : Value) (numArgs : Z)
         (val0 : compilationValue)                      (* line 48 *)
| LoopExit (c : NeoCompiler) (firstArgConst : bool)
           (firstArgVal : Value) (numArgs : Z)          (* line 53 *)
| LoopAbort (c : NeoCompiler) (f : failure).            (* line 46 *)

Definition loopStep (p : loopPoint) : option loopPoint :=
  match p with
  | LoopTest c firstArgConst firstArgVal numArgs =>
    if negb (TokenType_eqb (TType (peekToken c)) TokenComma)
    then Some (LoopExit c firstArgConst firstArgVal numArgs)
    else if firstArgConst
    then Some (Advance (emitPush firstArgVal c) false firstArgVal numArgs)
    else Some (Advance c firstArgConst firstArgVal numArgs)
  | Advance c firstArgConst firstArgVal numArgs =>
    let c := nextToken c in
    let c := nextToken c in
    match parseExpression c with
    | (c, Abort f) => Some (LoopAbort c f)
    | (c, Ok val0) => Some (Parsed c firstArgConst firstArgVal numArgs val0)
    end
  | Parsed c firstArgConst firstArgVal numArgs val0 =>
    let c := if isConst val0 then emitPush (val val0) c else c in
    Some (LoopTest c firstArgConst firstArgVal (numArgs + 1))
  | LoopExit _ _ _ _ => None
  | LoopAbort _ _ => None
  end.

Definition loopRel (p q : loopPoint) : Prop := loopStep p = Some q.

(** The constants that are known to the compiler at a program point and
    not yet pushed: the retained first argument, and the argument that
    has just been parsed. *)
Definition inFlight (p : loopPoint) : nat :=
  match p with
  | LoopTest _ firstArgConst _ _ => Nat.b2n firstArgConst
  | Advance _ firstArgConst _ _ => Nat.b2n firstArgConst
  | Parsed _ firstArgConst _ _ val0 =>
    (Nat.b2n firstArgConst + Nat.b2n (isConst val0))%nat
  | LoopExit _ firstArgConst _ _ => Nat.b2n firstArgConst
  | LoopAbort _ _ => 0%nat
  end.

Definition pointCompiler (p : loopPoint) : NeoCompiler :=
  match p with
  | LoopTest c _ _ _ | Advance c _ _ _ | Parsed c _ _ _ _
  | LoopExit c _ _ _ | LoopAbort c _ => c
  end.

(** Past the flush of lines 38-41 the first argument is no longer held
    back. *)
Definition firstFlushed (p : loopPoint) : Prop :=
  match p with
  | Advance _ firstArgConst _ _ => firstArgConst = false
  | Parsed _ firstArgConst _ _ _ => firstArgConst = false
  | _ => True
  end.

(** The instructions that materialize a parsed value on the stack once
    the parser has returned it: a push when it is a constant, nothing
    when the parser has emitted it already. *)
Definition pushFor (v : compilationValue) (c : NeoCompiler)
    : list Instruction :=
  if isConst v
  then [{| Op := NeoOpPush; Arg := Z.of_nat (length (constants c)) |}]
  else [].

Definition poolFor (v : compilationValue) : list Value :=
  if isConst v then [val v] else [].

(** What the loop returns when it stops at a program point: at the exit
    the count and the retained first argument, at line 46 the failure of
    the parser; the other points are not ends of the loop. *)
Definition resultOf (p : loopPoint)
    : option (NeoCompiler * result (Z * bool * Value)) :=
  match p with
  | LoopExit c firstArgConst firstArgVal numArgs =>
    Some (c, Ok (numArgs, firstArgConst, firstArgVal))
  | LoopAbort c f => Some (c, Abort f)
  | _ => None
  end.

(** The state in which the parser is called for the first argument
    (line 30): the dot, the method name and the opening parenthesis have
    been passed. *)
Definition firstArgument (c : NeoCompiler) : NeoCompiler :=
  nextToken (nextToken (nextToken c)).

(** The states in which a call entered in state [c] calls the parser:
    for its first argument (line 30), and, the first argument parsed,
    for the argument after each comma that the loop reaches (line 44). *)
Inductive argumentOf (c : NeoCompiler) : NeoCompiler -> Prop :=
| argument_first : argumentOf c (firstArgument c)
| argument_next (c1 cA : NeoCompiler) (v1 : compilationValue)
    (fc : bool) (fv : Value) (n : Z) :
    parseExpression (firstArgument c) = (c1, Ok v1) ->
    rtc loopRel (LoopTest c1 (isConst v1) (val v1) (0 + 1))
                (Advance cA fc fv n) ->
    argumentOf c (nextToken (nextToken cA)).

End Compiler.

(** *** A parser to run the compiler with *)

(** Modelled from the spec: the expression parser is not in the patch.
    This is its part for the operands of member calls: a string or
    number literal is a constant and emits nothing, an identifier is
    loaded with
    [NeoOpGetGlobal] and is then on the stack, and a dot after an operand
    hands that operand to the member-call compiler. *)
Fixpoint decimal (acc : Z) (digits : string) : Z :=
  match digits with
  | EmptyString => acc
  | String d rest =>
    decimal (10 * acc + (Z.of_nat (Ascii.nat_of_ascii d) - 48)) rest
  end.

Definition parseOperand (zeroType : ValueType) (c : NeoCompiler)
    : NeoCompiler * result compilationValue :=
  match TType (curToken c) with
  | TokenString =>
    (c, Ok {| isConst := true;
              val := Value_Str ValString (Literal (curToken c)) |})
  | TokenNumber =>
    (c, Ok {| isConst := true;
              val := Value_Num ValInt
                       (uint64 (decimal 0 (Literal (curToken c)))) |})
  | TokenIdent =>
    let (c', i) := addConstant (Value_Str ValString (Literal (curToken c))) c in
    (emit NeoOpGetGlobal i c', Ok (on_stack zeroType))
  | _ => (c, Abort (Error "unexpected token"))
  end.

Fixpoint dotLoop
    (memberCall : NeoCompiler -> compilationValue ->
                  NeoCompiler * result compilationValue)
    (fuel : nat) (c : NeoCompiler) (left : compilationValue)
    : NeoCompiler * result compilationValue :=
  if negb (TokenType_eqb (TType (peekToken c)) TokenDot)
  then (c, Ok left)
  else
    match fuel with
    | O => (c, Abort OutOfFuel)
    | S fuel' =>
      match memberCall (nextToken c) left with
      | (c, Abort f) => (c, Abort f)
      | (c, Ok left0) => dotLoop memberCall fuel' c left0
      end
    end.

Definition kindName (t : TokenType) : string :=
  match t with
  | TokenIdent => "IDENT" | TokenLParen => "(" | TokenRParen => ")"
  | TokenComma => "," | TokenDot => "." | TokenString => "STRING"
  | TokenNumber => "NUMBER" | TokenEOF => "EOF" | TokenOther _ => "ILLEGAL"
  end.

Fixpoint parseExpression_model (depth : nat) (c : NeoCompiler)
    : NeoCompiler * result compilationValue :=
  match depth with
  | O => (c, Abort OutOfFuel)
  | S d =>
    match parseOperand ValNil c with
    | (c, Abort f) => (c, Abort f)
    | (c, Ok left0) =>
      dotLoop (parseMemberCallExpression ValNil kindName
                 (parseExpression_model d) d) d c left0
    end
  end.

Definition parse5 : NeoCompiler -> NeoCompiler * result compilationValue :=
  parseExpression_model 5.

(** The compiler of member calls over the modelled parser. *)
Definition compileMemberCall (fuel : nat) :=
  parseMemberCallExpression ValNil kindName (parseExpression_model fuel) fuel.

(** The compiler as it stands after [m] has been parsed as the subject:
    [m] is loaded, the current token is the dot, [toks] follow. *)
Definition afterSubject (m : string) (toks : list Token) : NeoCompiler :=
  {| instructions := [{| Op := NeoOpGetGlobal; Arg := 0 |}];
     constants := [Value_Str ValString m];
     curToken := {| TType := TokenDot; Literal := "." |};
     peekToken := hd EOF toks;
     input := tl toks |}.

Definition ident (s : string) : Token := {| TType := TokenIdent; Literal := s |}.
Definition str (s : string) : Token := {| TType := TokenString; Literal := s |}.
Definition lparen : Token := {| TType := TokenLParen; Literal := "(" |}.
Definition rparen : Token := {| TType := TokenRParen; Literal := ")" |}.
Definition comma : Token := {| TType := TokenComma; Literal := "," |}.
Definition dot : Token := {| TType := TokenDot; Literal := "." |}.
Definition num (s : string) : Token := {| TType := TokenNumber; Literal := s |}.

(** One compiler state extends another: both buffers of the first are
    initial segments of the buffers of the second. *)
Definition grows (c c' : NeoCompiler) : Prop :=
  instructions c `prefix_of` instructions c'
  /\ constants c `prefix_of` constants c'.

(** The operand of an instruction fits a pool: a push names a slot of
    the pool, a constant-key get names a slot that holds a string. *)
Definition operandOk (pool : list Value) (i : Instruction) : bool :=
  match Op i with
  | NeoOpPush =>
    match index_Z pool (Arg i) with Some _ => true | None => false end
  | NeoOpMapGetConst =>
    match index_Z pool (Arg i) with
    | Some v => ValueType_eqb (VType v) ValString
    | None => false
    end
  | _ => true
  end.

Definition operandsOk (c : NeoCompiler) : bool :=
  forallb (operandOk (constants c)) (instructions c).

(** The calls that the properties are run on, each one from the dot
    after the subject [m]. *)
Definition call_get_K : NeoCompiler :=                      (* m.get("K") *)
  afterSubject "m" [ident "get"; lparen; str "K"; rparen].
Definition call_get_none : NeoCompiler :=                   (* m.get() *)
  afterSubject "m" [ident "get"; lparen; rparen].
Definition call_get_a_b : NeoCompiler :=                    (* m.get("a","b") *)
  afterSubject "m" [ident "get"; lparen; str "a"; comma; str "b"; rparen].
Definition call_set_a : NeoCompiler :=                      (* m.set("a") *)
  afterSubject "m" [ident "set"; lparen; str "a"; rparen].
Definition call_set_K_v : NeoCompiler :=                    (* m.set("K", v) *)
  afterSubject "m" [ident "set"; lparen; str "K"; comma; ident "v"; rparen].
Definition call_foo_1 : NeoCompiler :=                      (* m.foo(1) *)
  afterSubject "m" [ident "foo"; lparen; num "1"; rparen].
Definition call_nested : NeoCompiler :=            (* m.get("a".get("b")) *)
  afterSubject "m" [ident "get"; lparen; str "a"; dot; ident "get"; lparen;
                    str "b"; rparen; rparen].

(** [m] as a subject, and a literal as a subject. *)
Definition subject_m : compilationValue := on_stack ValNil.
Definition subject_literal : compilationValue :=
  {| isConst := true; val := Value_Str ValString "a" |}.

(** Further calls: [m.get(k)], [m.get(1)], [m.has("K")], [m.del(k)],
    [m.has()], [m.1], [m.get "K"] and [m.get("K"]. *)
Definition call_get_k : NeoCompiler :=
  afterSubject "m" [ident "get"; lparen; ident "k"; rparen].
Definition call_get_1 : NeoCompiler :=
  afterSubject "m" [ident "get"; lparen; num "1"; rparen].
Definition call_has_K : NeoCompiler :=
  afterSubject "m" [ident "has"; lparen; str "K"; rparen].
Definition call_del_k : NeoCompiler :=
  afterSubject "m" [ident "del"; lparen; ident "k"; rparen].
Definition call_has_none : NeoCompiler :=
  afterSubject "m" [ident "has"; lparen; rparen].
Definition call_no_method : NeoCompiler :=
  afterSubject "m" [num "1"].
Definition call_no_lparen : NeoCompiler :=
  afterSubject "m" [ident "get"; str "K"].
Definition call_no_rparen : NeoCompiler :=
  afterSubject "m" [ident "get"; lparen; str "K"].

(** The parser of one operand, without fuel: literals and identifiers. *)
Definition parse1 : NeoCompiler -> NeoCompiler * result compilationValue :=
  parseOperand ValNil.

End Neo.

(** ** The tree-walking compiler (vm_compiler.go) *)

Module VMC.

Inductive Opcode : Type :=
| OpMapGetConst | OpMapGet | OpMapDel | OpPush
| OpOther (tag : nat).

Definition Opcode_eqb (a b : Opcode) : bool :=
  match a, b with
  | OpMapGetConst, OpMapGetConst | OpMapGet, OpMapGet
  | OpMapDel, OpMapDel | OpPush, OpPush => true
  | OpOther m, OpOther n => Nat.eqb m n
  | _, _ => false
  end.

Record Instruction : Type := mkInstruction { Op : Opcode; Arg : Z }.

(** How many instructions of a sequence carry a given opcode. *)
Definition countOp (op : Opcode) (l : list Instruction) : nat :=
  length (List.filter (fun i => Opcode_eqb (Op i) op) l).

Record VMCompiler : Type := mkCompiler {
  instructions : list Instruction;
  constants : list Value
}.

(** The syntax tree: the node kinds the patched case looks at, and
    [OtherNode] for the rest. *)
Inductive Node : Type :=
| Identifier (name : string)
| StringLiteral (value : string)
| MemberCallExpression (Object : Node) (Method : string)
                       (Arguments : list Node)
| OtherNode (tag : nat).

(** Modelled from the spec: [emit] and [addConstant] of this compiler are
    not in the patch; they append to the buffer and to the pool. *)
Definition emit (op : Opcode) (arg : Z) (c : VMCompiler) : VMCompiler :=
  {| instructions := instructions c ++ [{| Op := op; Arg := arg |}];
     constants := constants c |}.

Definition addConstant (v : Value) (c : VMCompiler) : VMCompiler * Z :=
  ({| instructions := instructions c; constants := constants c ++ [v] |},
   Z.of_nat (length (constants c))).

Section Walk.

(** [c.walk], for the subject of the call. *)
Variable walk : Node -> VMCompiler -> VMCompiler * option string.
(** The text of the case that the patch leaves in place below the block
    it inserts, from [err := c.walk(n.Object)] on. *)
Variable walkGeneral :
  Node -> string -> list Node -> VMCompiler -> VMCompiler * option string.

(** [case *MemberCallExpression:] of [walk] after the patch
    (reapply_map_opt.py, lines 59-68). *)
Definition walk_MemberCallExpression
    (Object : Node) (Method : string) (Arguments : list Node)
    (c : VMCompiler) : VMCompiler * option string :=
  if String.eqb Method "get" && (Z.of_nat (length Arguments) =? 1)
  then
    match Arguments with
    | StringLiteral lit :: _ =>
      match walk Object c with
      | (c, Some err) => (c, Some err)
      | (c, None) =>
        let (c, i) := addConstant (Value_Str ValString lit) c in
        (emit OpMapGetConst i c, None)
      end
    | _ => walkGeneral Object Method Arguments c
    end
  else walkGeneral Object Method Arguments c.

End Walk.
End VMC.

(** ** The patch script for the VM loops (reapply_map_opt.py)

    Python strings are carried by [string].  The text of the function
    between the read and the write of the file is modelled; what [open],
    [read] and [write] do to the file is not. *)

Module Patch.

Local Open Scope string_scope.

(** [sub in s] on Python strings. *)
Fixpoint occurs (sub s : string) : bool :=
  String.prefix sub s
  || match s with
     | EmptyString => false
     | String _ s' => occurs sub s'
     end.

(** [s.replace(old, new)] for a non-empty [old]: the text is scanned from
    the left, an occurrence of [old] is replaced and skipped, so that the
    occurrences replaced do not overlap.  [skip] counts the characters of
    a replaced occurrence that are still to be passed over. *)
Fixpoint replace_scan (old new : string) (skip : nat) (s : string) : string :=
  match s with
  | EmptyString => EmptyString
  | String a s' =>
    match skip with
    | S k => replace_scan old new k s'
    | O =>
      if String.prefix old s
      then new +:+ replace_scan old new (String.length old - 1) s'
      else String a (replace_scan old new 0 s')
    end
  end.

(** With an empty [old], [replace] puts [new] before every character and
    at the end. *)
Fixpoint interleave (new s : string) : string :=
  match s with
  | EmptyString => new
  | String a s' => new +:+ String a (interleave new s')
  end.

Definition replace (old new s : string) : string :=
  match old with
  | EmptyString => interleave new s
  | String _ _ => replace_scan old new 0 s
  end.

Definition nl : string := String (Ascii.ascii_of_nat 10) EmptyString.
Definition tab : string := String (Ascii.ascii_of_nat 9) EmptyString.
Definition dq : string := String (Ascii.ascii_of_nat 34) EmptyString.
Definition tab3 : string := tab +:+ tab +:+ tab.

(** Lines 11-24: the text of the handler for the Neo VM. *)
Definition mgetc_code_neo : string :=
  "case NeoOpMapGetConst:" +:+ nl +:+
  tab3 +:+ "obj := &stack[sp]" +:+ nl +:+
  tab3 +:+ "if obj.Type != ValMap { return nil, fmt.Errorf(" +:+ dq +:+
    "MGETC: not a map" +:+ dq +:+ ") }" +:+ nl +:+
  tab3 +:+ "m := obj.Ptr.(map[string]any)" +:+ nl +:+
  tab3 +:+ "val := m[(" +:+ "*Value)(unsafe.Add(unsafe.Pointer(pConsts), "
    +:+ "uintptr(inst.Arg)*valSize)).Str]" +:+ nl +:+
  tab3 +:+ "switch v := val.(type) {" +:+ nl +:+
  tab3 +:+ "case int64: *obj = Value{Type: ValInt, Num: uint64(v)}"
    +:+ nl +:+
  tab3 +:+ "case int: *obj = Value{Type: ValInt, Num: uint64(int64(v))}"
    +:+ nl +:+
  tab3 +:+
    "case float64: *obj = Value{Type: ValFloat, Num: math.Float64bits(v)}"
    +:+ nl +:+
  tab3 +:+ "case string: *obj = Value{Type: ValString, Str: v}" +:+ nl +:+
  tab3 +:+ "case bool: *obj = Value{Type: ValBool, Num: boolToUint64(v)}"
    +:+ nl +:+
  tab3 +:+ "case nil: *obj = Value{Type: ValNil}" +:+ nl +:+
  tab3 +:+ "default: *obj = FromInterface(v)" +:+ nl +:+
  tab3 +:+ "}".

(** Lines 27-40: the text of the handler for the plain VM. *)
Definition mgetc_code_plain : string :=
  "case OpMapGetConst:" +:+ nl +:+
  tab3 +:+ "obj := &stack[sp]" +:+ nl +:+
  tab3 +:+ "if obj.Type != ValMap { return nil, fmt.Errorf(" +:+ dq +:+
    "MGETC: not a map" +:+ dq +:+ ") }" +:+ nl +:+
  tab3 +:+ "m := obj.Ptr.(map[string]any)" +:+ nl +:+
  tab3 +:+ "val := m[consts[inst.Arg].Str]" +:+ nl +:+
  tab3 +:+ "switch v := val.(type) {" +:+ nl +:+
  tab3 +:+ "case int64: *obj = Value{Type: ValInt, Num: uint64(v)}"
    +:+ nl +:+
  tab3 +:+ "case int: *obj = Value{Type: ValInt, Num: uint64(int64(v))}"
    +:+ nl +:+
  tab3 +:+
    "case float64: *obj = Value{Type: ValFloat, Num: math.Float64bits(v)}"
    +:+ nl +:+
  tab3 +:+ "case string: *obj = Value{Type: ValString, Str: v}" +:+ nl +:+
  tab3 +:+ "case bool: *obj = Value{Type: ValBool, Num: boolToUint64(v)}"
    +:+ nl +:+
  tab3 +:+ "case nil: *obj = Value{Type: ValNil}" +:+ nl +:+
  tab3 +:+ "default: *obj = FromInterface(v)" +:+ nl +:+
  tab3 +:+ "}".

(** The text that marks a file as patched, the [case] before which the
    handler goes, and the text that takes the place of that [case]. *)
Definition marker : string := "OpMapGetConst".
Definition targetOf (is_neo : bool) : string :=
  "case " +:+ (if is_neo then "NeoOp" else "Op") +:+ "MapDel:".
Definition insertedText (is_neo : bool) : string :=
  (if is_neo then mgetc_code_neo else mgetc_code_plain)
  +:+ nl +:+ tab +:+ tab +:+ targetOf is_neo.

(** Lines 43-45, on the content that has been read. *)
Definition insert_handler (is_neo : bool) (content : string) : string :=
  let (mgetc_code, op_prefix) :=
    if is_neo then (mgetc_code_neo, "NeoOp") else (mgetc_code_plain, "Op") in
  let target := "case " +:+ op_prefix +:+ "MapDel:" in
  if occurs target content
  then replace target (mgetc_code +:+ nl +:+ tab +:+ tab +:+ target) content
  else content.

(** [def add_mgetc_to_vm(filename, op_name, is_neo=False)], lines 7-45,
    between the read of line 5 and the write of line 48: given the text
    that [f.read()] has returned, the text that is handed to [f.write],
    or [None] when the function returns at line 8 and writes nothing.
    The body uses neither [filename] nor [op_name] here. *)
Definition add_mgetc_to_vm_text (is_neo : bool) (content : string)
    : option string :=
  if occurs "OpMapGetConst" content
  then None                                      (* Already added *)
  else Some (insert_handler is_neo content).

(** Two small VM sources: a switch with a [MapDel] case, for each VM. *)
Definition vm_go : string :=
  "switch inst.Op {" +:+ nl +:+ tab +:+ tab +:+ "case OpMapDel:" +:+ nl
  +:+ tab3 +:+ "del()" +:+ nl +:+ tab +:+ tab +:+ "}".
Definition neoex_vm_go : string :=
  "switch inst.Op {" +:+ nl +:+ tab +:+ tab +:+ "case NeoOpMapDel:" +:+ nl
  +:+ tab3 +:+ "del()" +:+ nl +:+ tab +:+ tab +:+ "}".
End Patch.

(** Stand-ins for the two helpers of the engine and for the walk of an
    identifier, to run the handlers and the tree-walking compiler on. *)
Definition FromInterface_sample (v : any) : Value :=
  {| VType := ValOther 0; Num := 0; Str := ""; Ptr := v |}.
Definition boolToUint64_sample (b : bool) : Z := if b then 1 else 0.
Definition walk_sample (n : VMC.Node) (c : VMC.VMCompiler)
    : VMC.VMCompiler * option string :=
  match n with
  | VMC.Identifier name =>
    let (c, i) := VMC.addConstant (Value_Str ValString name) c in
    (VMC.emit (VMC.OpOther 0) i c, None)
  | _ => (c, Some "unsupported node")
  end.
Definition walkGeneral_sample (Object : VMC.Node) (Method : string)
    (Arguments : list VMC.Node) (c : VMC.VMCompiler)
    : VMC.VMCompiler * option string :=
  (c, Some "unsupported call").
Definition emptyVMCompiler : VMC.VMCompiler :=
  {| VMC.instructions := []; VMC.constants := [] |}.

(** [strings.Contains(s, sub)]. *)
Definition contains (s sub : string) : bool :=
  match String.index 0 sub s with
  | Some _ => true
  | None => false
  end.

(** A map value as the engine builds it: the [Map] discriminant over the
    Go map. *)
Definition Value_Map (m : gmap string any) : Value :=
  {| VType := ValMap; Num := 0; Str := ""; Ptr := AnyMap m |}.

(** A map with the one key ["a"], and a pool with the keys ["a"] and
    ["b"]. *)
Definition map_a : gmap string any := {[ "a" := AnyInt64 7 ]}.
Definition pool_a_b : list Value :=
  [Value_Str ValString "a"; Value_Str ValString "b"].
Definition nothing_beyond (i : Z) : Value := Value_Type ValNil.

(** * Properties of the VM handlers *)

Lemma ValueType_eqb_eq (a b : ValueType) :
  ValueType_eqb a b = true <-> a = b.
Proof.
  split.
  - destruct a, b; simpl; intros H; try discriminate H; try reflexivity.
    apply Nat.eqb_eq in H. now subst.
  - intros ->. destruct b; simpl; try reflexivity. apply Nat.eqb_refl.
Qed.

Lemma ValueType_eqb_neq (a b : ValueType) :
  a <> b -> ValueType_eqb a b = false.
Proof.
  intros H. destruct (ValueType_eqb a b) eqn:E; [|reflexivity].
  apply ValueType_eqb_eq in E. contradiction.
Qed.

Lemma index_Z_lt {A : Type} (s : list A) (i : Z) (x : A) :
  index_Z s i = Some x -> 0 <= i < Z.of_nat (length s).
Proof.
  unfold index_Z. destruct (Z.ltb_spec i 0) as [Hlt|Hge]; [discriminate|].
  intros H. apply lookup_lt_Some in H. lia.
Qed.

Lemma index_Z_insert {A : Type} (s : list A) (i : Z) (x y : A) :
  index_Z s i = Some x -> index_Z (<[Z.to_nat i := y]> s) i = Some y.
Proof.
  intros H. pose proof (index_Z_lt _ _ _ H) as Hr.
  unfold index_Z in *. destruct (Z.ltb_spec i 0) as [Hlt|Hge]; [lia|].
  apply list_lookup_insert_eq. lia.
Qed.

Section HandlerProperties.

Variable FromInterface : any -> Value.
Variable boolToUint64 : bool -> Z.

Local Abbreviation plain :=
  (VMLoop.exec_OpMapGetConst FromInterface boolToUint64).
Local Abbreviation neo :=
  (VMLoop.exec_NeoOpMapGetConst FromInterface boolToUint64).

Lemma switches_agree (v : any) :
  VMLoop.neo_switch FromInterface boolToUint64 v
  = VMLoop.plain_switch FromInterface boolToUint64 v.
Proof. destruct v; reflexivity. Qed.

Lemma unsafe_slot_in_pool consts beyond Arg key :
  index_Z consts Arg = Some key ->
  VMLoop.unsafe_slot consts beyond Arg = key.
Proof. unfold VMLoop.unsafe_slot. now intros ->. Qed.

(** On an operand that is not a map both handlers return the same
    error and leave the stack as it was. *)
Lemma not_a_map_both consts beyond stack sp Arg obj :
  index_Z stack sp = Some obj ->
  VType obj <> ValMap ->
  plain consts stack sp Arg = (stack, Return_err "MGETC: not a map")
  /\ neo consts beyond stack sp Arg = (stack, Return_err "MGETC: not a map").
Proof.
  intros Hobj Hty.
  unfold VMLoop.exec_OpMapGetConst, VMLoop.exec_NeoOpMapGetConst.
  rewrite Hobj, (ValueType_eqb_neq _ _ Hty). simpl. split; reflexivity.
Qed.

(** On a map operand and a pooled key both handlers store the converted
    element over the operand and go on. *)
Lemma lookup_both consts beyond stack sp Arg obj m key :
  index_Z stack sp = Some obj ->
  VType obj = ValMap ->
  Ptr obj = AnyMap m ->
  index_Z consts Arg = Some key ->
  let stored :=
    VMLoop.plain_switch FromInterface boolToUint64 (map_index m (Str key)) in
  plain consts stack sp Arg = (<[Z.to_nat sp := stored]> stack, Continue)
  /\ neo consts beyond stack sp Arg
     = (<[Z.to_nat sp := stored]> stack, Continue).
Proof.
  intros Hobj Hty Hptr Hkey stored.
  unfold VMLoop.exec_OpMapGetConst, VMLoop.exec_NeoOpMapGetConst.
  rewrite Hobj, Hty, Hptr, Hkey, (unsafe_slot_in_pool _ _ _ _ Hkey).
  cbn [ValueType_eqb negb]. split; [reflexivity|].
  cbv zeta. do 2 f_equal.
Qed.

(** C2. The handler of the plain VM and the handler of the Neo VM are
    one function of the stack, the pool and the operand: whenever the
    operand of the instruction indexes a slot of the constant pool they
    end in the same way with the same stack, so the same tagged value
    is stored for every dynamic type of the element (int64, int,
    float64, string, bool, nil and the fallback conversion), and on an
    operand that is not a map both return the error
    "MGETC: not a map". *)
Theorem MapGetConst_handlers_agree
    (consts : list Value) (beyond : Z -> Value)
    (stack : list Value) (sp Arg : Z) (key : Value) :
  index_Z consts Arg = Some key ->
  neo consts beyond stack sp Arg = plain consts stack sp Arg
  /\ (forall obj m,
        index_Z stack sp = Some obj -> VType obj = ValMap ->
        Ptr obj = AnyMap m ->
        forall stored,
          stored = match map_index m (Str key) with
                   | AnyInt64 v => Value_Num ValInt (v mod 2 ^ 64)
                   | AnyInt v => Value_Num ValInt (v mod 2 ^ 64)
                   | AnyFloat64 v => Value_Num ValFloat (v mod 2 ^ 64)
                   | AnyString v => Value_Str ValString v
                   | AnyBool v => Value_Num ValBool (boolToUint64 v)
                   | AnyNil => Value_Type ValNil
                   | v => FromInterface v
                   end ->
          plain consts stack sp Arg
          = (<[Z.to_nat sp := stored]> stack, Continue)
          /\ neo consts beyond stack sp Arg
             = (<[Z.to_nat sp := stored]> stack, Continue))
  /\ (forall obj,
        index_Z stack sp = Some obj -> VType obj <> ValMap ->
        plain consts stack sp Arg = (stack, Return_err "MGETC: not a map")
        /\ neo consts beyond stack sp Arg
           = (stack, Return_err "MGETC: not a map")).
Proof.
  intros Hkey. split; [|split].
  - unfold VMLoop.exec_OpMapGetConst, VMLoop.exec_NeoOpMapGetConst.
    destruct (index_Z stack sp) as [obj|]; [|reflexivity].
    destruct (negb (ValueType_eqb (VType obj) ValMap)); [reflexivity|].
    destruct (Ptr obj); try reflexivity.
    rewrite Hkey, (unsafe_slot_in_pool _ _ _ _ Hkey).
    cbv zeta. do 2 f_equal.
  - intros obj m Hobj Hty Hptr stored ->.
    pose proof (lookup_both consts beyond stack sp Arg obj m key
                  Hobj Hty Hptr Hkey) as H.
    cbv zeta in H. unfold VMLoop.plain_switch in H.
    destruct (map_index m (Str key)); exact H.
  - intros obj Hobj Hty. now apply not_a_map_both with (obj := obj).
Qed.

(** C7. When the operand on top of the stack is a map and the pooled
    key is absent from it, both handlers go on without an error and the
    top of the stack is now the [Nil] value, written over the map: the
    lookup is total. *)
Theorem MapGetConst_missing_key_is_nil
    (consts : list Value) (beyond : Z -> Value)
    (stack : list Value) (sp Arg : Z)
    (obj key : Value) (m : gmap string any) :
  index_Z stack sp = Some obj ->
  VType obj = ValMap ->
  Ptr obj = AnyMap m ->
  index_Z consts Arg = Some key ->
  m !! Str key = None ->
  plain consts stack sp Arg
  = (<[Z.to_nat sp := Value_Type ValNil]> stack, Continue)
  /\ neo consts beyond stack sp Arg
     = (<[Z.to_nat sp := Value_Type ValNil]> stack, Continue)
  /\ index_Z (fst (plain consts stack sp Arg)) sp = Some (Value_Type ValNil)
  /\ index_Z (fst (neo consts beyond stack sp Arg)) sp
     = Some (Value_Type ValNil).
Proof.
  intros Hobj Hty Hptr Hkey Hmiss.
  destruct (lookup_both consts beyond stack sp Arg obj m key
              Hobj Hty Hptr Hkey) as [Hp Hn].
  unfold map_index in Hp, Hn. rewrite Hmiss in Hp, Hn. simpl in Hp, Hn.
  rewrite Hp, Hn. simpl.
  repeat split; apply (index_Z_insert _ _ _ _ Hobj).
Qed.

(** X21. When the value on top of the stack does not carry the [Map]
    discriminant, the constant-key get of either VM returns an error whose
    message contains "not a map"; the stack is the one it was given,
    and this holds whatever the constant pool and the operand are, so
    no slot is read and no key is looked up. *)
Theorem MapGetConst_not_a_map
    (consts : list Value) (beyond : Z -> Value)
    (stack : list Value) (sp Arg : Z) (obj : Value) :
  index_Z stack sp = Some obj ->
  VType obj <> ValMap ->
  exists msg,
    contains msg "not a map" = true
    /\ plain consts stack sp Arg = (stack, Return_err msg)
    /\ neo consts beyond stack sp Arg = (stack, Return_err msg)
    /\ (forall consts' beyond' Arg',
          plain consts' stack sp Arg' = (stack, Return_err msg)
          /\ neo consts' beyond' stack sp Arg' = (stack, Return_err msg)).
Proof.
  intros Hobj Hty. exists "MGETC: not a map".
  destruct (not_a_map_both consts beyond stack sp Arg obj Hobj Hty)
    as [Hp Hn].
  repeat split; try assumption; try reflexivity;
    now apply not_a_map_both with (obj := obj).
Qed.

(** ** The handlers beyond the claims *)

Lemma index_Z_insert_other {A : Type} (s : list A) (i j : Z) (y : A) :
  0 <= i -> j <> i -> index_Z (<[Z.to_nat i := y]> s) j = index_Z s j.
Proof.
  intros Hi Hne. unfold index_Z.
  destruct (Z.ltb_spec j 0); [reflexivity|].
  apply list_lookup_insert_ne. lia.
Qed.

Lemma index_Z_nonneg {A : Type} (s : list A) (i : Z) (x : A) :
  index_Z s i = Some x -> 0 <= i.
Proof. intros H. apply index_Z_lt in H. lia. Qed.

(** Each handler either leaves the stack as it is or overwrites slot
    [sp] of it. *)
Lemma plain_stack_shape consts stack sp Arg :
  fst (plain consts stack sp Arg) = stack
  \/ (0 <= sp /\ snd (plain consts stack sp Arg) = Continue
      /\ exists v, fst (plain consts stack sp Arg) = <[Z.to_nat sp := v]> stack).
Proof.
  unfold VMLoop.exec_OpMapGetConst.
  destruct (index_Z stack sp) as [obj|] eqn:Hobj; [|now left].
  destruct (negb (ValueType_eqb (VType obj) ValMap)); [now left|].
  destruct (Ptr obj); try (now left).
  destruct (index_Z consts Arg); [|now left].
  right. split; [exact (index_Z_nonneg _ _ _ Hobj)|]. simpl. eauto.
Qed.

Lemma neo_stack_shape consts beyond stack sp Arg :
  fst (neo consts beyond stack sp Arg) = stack
  \/ (0 <= sp /\ snd (neo consts beyond stack sp Arg) = Continue
      /\ exists v,
           fst (neo consts beyond stack sp Arg) = <[Z.to_nat sp := v]> stack).
Proof.
  unfold VMLoop.exec_NeoOpMapGetConst.
  destruct (index_Z stack sp) as [obj|] eqn:Hobj; [|now left].
  destruct (negb (ValueType_eqb (VType obj) ValMap)); [now left|].
  destruct (Ptr obj); try (now left).
  right. split; [exact (index_Z_nonneg _ _ _ Hobj)|]. simpl. eauto.
Qed.

(** X1. The two handlers work in place: whatever the outcome, the stack
    keeps its length, and every slot other than [sp] keeps its value. *)
Theorem MapGetConst_in_place
    (consts : list Value) (beyond : Z -> Value)
    (stack : list Value) (sp Arg : Z) :
  length (fst (plain consts stack sp Arg)) = length stack
  /\ length (fst (neo consts beyond stack sp Arg)) = length stack
  /\ (forall j, j <> sp ->
        index_Z (fst (plain consts stack sp Arg)) j = index_Z stack j
        /\ index_Z (fst (neo consts beyond stack sp Arg)) j
           = index_Z stack j).
Proof.
  destruct (plain_stack_shape consts stack sp Arg)
    as [Hp|(Hsp & _ & vp & Hp)];
  destruct (neo_stack_shape consts beyond stack sp Arg)
    as [Hn|(Hsn & _ & vn & Hn)];
  rewrite Hp, Hn; rewrite ?length_insert;
  (split; [reflexivity|]); (split; [reflexivity|]);
  intros j Hj; rewrite ?index_Z_insert_other by assumption;
  split; reflexivity.
Qed.

(** X2. When a handler goes on to the next instruction, and when it does
    not.  The plain handler goes on exactly when slot [sp] exists, holds
    a value typed [Map] whose pointer is a Go map, and the operand lies
    in the constant pool.  For an operand that lies in the pool the Neo
    handler goes on under the same conditions on the slot.  Whenever a
    handler does not go on, the stack is left as it was. *)
Theorem MapGetConst_continue_iff
    (consts : list Value) (beyond : Z -> Value)
    (stack : list Value) (sp Arg : Z) :
  (snd (plain consts stack sp Arg) = Continue <->
   exists obj m key,
     index_Z stack sp = Some obj /\ VType obj = ValMap
     /\ Ptr obj = AnyMap m /\ index_Z consts Arg = Some key)
  /\ (forall key,
        index_Z consts Arg = Some key ->
        (snd (neo consts beyond stack sp Arg) = Continue <->
         exists obj m,
           index_Z stack sp = Some obj /\ VType obj = ValMap
           /\ Ptr obj = AnyMap m)
        /\ (snd (neo consts beyond stack sp Arg) = Continue <->
            snd (plain consts stack sp Arg) = Continue)
        /\ (snd (neo consts beyond stack sp Arg) <> Continue ->
            fst (neo consts beyond stack sp Arg) = stack))
  /\ (snd (plain consts stack sp Arg) <> Continue ->
      fst (plain consts stack sp Arg) = stack).
Proof.
  assert (Hplain :
    snd (plain consts stack sp Arg) = Continue <->
    exists obj m key,
      index_Z stack sp = Some obj /\ VType obj = ValMap
      /\ Ptr obj = AnyMap m /\ index_Z consts Arg = Some key).
  { unfold VMLoop.exec_OpMapGetConst. split.
    - destruct (index_Z stack sp) as [obj|]; [|discriminate].
      destruct (ValueType_eqb (VType obj) ValMap) eqn:Hty; cbn [negb];
        [|discriminate].
      apply ValueType_eqb_eq in Hty.
      destruct (Ptr obj) eqn:Hptr; try discriminate.
      destruct (index_Z consts Arg) as [key|]; [|discriminate].
      intros _. eauto 10.
    - intros (obj & m & key & -> & Hty & Hptr & ->).
      rewrite Hty, Hptr. reflexivity. }
  assert (Hneo :
    snd (neo consts beyond stack sp Arg) = Continue <->
    exists obj m,
      index_Z stack sp = Some obj /\ VType obj = ValMap
      /\ Ptr obj = AnyMap m).
  { unfold VMLoop.exec_NeoOpMapGetConst. split.
    - destruct (index_Z stack sp) as [obj|]; [|discriminate].
      destruct (ValueType_eqb (VType obj) ValMap) eqn:Hty; cbn [negb];
        [|discriminate].
      apply ValueType_eqb_eq in Hty.
      destruct (Ptr obj) eqn:Hptr; try discriminate.
      intros _. eauto 10.
    - intros (obj & m & -> & Hty & Hptr).
      rewrite Hty, Hptr. reflexivity. }
  split; [exact Hplain|]. split.
  - intros key Hkey. split; [exact Hneo|]. split.
    + rewrite Hneo, Hplain. split.
      * intros (obj & m & H1 & H2 & H3). exists obj, m, key. auto.
      * intros (obj & m & key' & H1 & H2 & H3 & _). exists obj, m. auto.
    + intros Hne.
      destruct (neo_stack_shape consts beyond stack sp Arg)
        as [Hn|(_ & Hc & _)]; [exact Hn|contradiction].
  - intros Hne.
    destruct (plain_stack_shape consts stack sp Arg)
      as [Hp|(_ & Hc & _)]; [exact Hp|contradiction].
Qed.

Lemma run_on_map consts beyond stack sp Arg old m key :
  index_Z stack sp = Some old ->
  index_Z consts Arg = Some key ->
  let stored :=
    VMLoop.plain_switch FromInterface boolToUint64 (map_index m (Str key)) in
  plain consts (<[Z.to_nat sp := Value_Map m]> stack) sp Arg
  = (<[Z.to_nat sp := stored]> stack, Continue)
  /\ neo consts beyond (<[Z.to_nat sp := Value_Map m]> stack) sp Arg
     = (<[Z.to_nat sp := stored]> stack, Continue).
Proof.
  intros Hold Hkey stored.
  destruct (lookup_both consts beyond
              (<[Z.to_nat sp := Value_Map m]> stack) sp Arg
              (Value_Map m) m key
              (index_Z_insert _ _ _ _ Hold) eq_refl eq_refl Hkey)
    as [Hp Hn].
  rewrite Hp, Hn. fold stored.
  rewrite list_insert_insert_eq. split; reflexivity.
Qed.

(** X3. The lookup depends on the binding of the pooled key only: a map
    that has been given another key, or has lost another key, gives the
    same result and the same stack. *)
Theorem MapGetConst_other_keys
    (consts : list Value) (beyond : Z -> Value)
    (stack : list Value) (sp Arg : Z) (old key : Value)
    (m : gmap string any) (k' : string) (x : any) :
  index_Z stack sp = Some old ->
  index_Z consts Arg = Some key ->
  k' <> Str key ->
  plain consts (<[Z.to_nat sp := Value_Map (<[k' := x]> m)]> stack) sp Arg
  = plain consts (<[Z.to_nat sp := Value_Map m]> stack) sp Arg
  /\ plain consts (<[Z.to_nat sp := Value_Map (delete k' m)]> stack) sp Arg
     = plain consts (<[Z.to_nat sp := Value_Map m]> stack) sp Arg
  /\ neo consts beyond
       (<[Z.to_nat sp := Value_Map (<[k' := x]> m)]> stack) sp Arg
     = neo consts beyond (<[Z.to_nat sp := Value_Map m]> stack) sp Arg
  /\ neo consts beyond
       (<[Z.to_nat sp := Value_Map (delete k' m)]> stack) sp Arg
     = neo consts beyond (<[Z.to_nat sp := Value_Map m]> stack) sp Arg.
Proof.
  intros Hold Hkey Hne.
  destruct (run_on_map consts beyond stack sp Arg old m key Hold Hkey)
    as [Hp Hn].
  destruct (run_on_map consts beyond stack sp Arg old (<[k' := x]> m) key
              Hold Hkey) as [Hpi Hni].
  destruct (run_on_map consts beyond stack sp Arg old (delete k' m) key
              Hold Hkey) as [Hpd Hnd].
  rewrite Hp, Hn, Hpi, Hni, Hpd, Hnd. unfold map_index.
  rewrite lookup_insert_ne, lookup_delete_ne by assumption.
  repeat split.
Qed.

(** X4. A key bound to the nil interface and a key that is not in the
    map cannot be told apart: after [m[K] = nil] and after
    [delete(m, K)] alike, the handlers store [Nil] over the map and go
    on. *)
Theorem MapGetConst_nil_is_absent
    (consts : list Value) (beyond : Z -> Value)
    (stack : list Value) (sp Arg : Z) (old key : Value)
    (m : gmap string any) :
  index_Z stack sp = Some old ->
  index_Z consts Arg = Some key ->
  let after := (<[Z.to_nat sp := Value_Type ValNil]> stack, Continue) in
  plain consts
    (<[Z.to_nat sp := Value_Map (<[Str key := AnyNil]> m)]> stack) sp Arg
  = after
  /\ plain consts
       (<[Z.to_nat sp := Value_Map (delete (Str key) m)]> stack) sp Arg
     = after
  /\ neo consts beyond
       (<[Z.to_nat sp := Value_Map (<[Str key := AnyNil]> m)]> stack) sp Arg
     = after
  /\ neo consts beyond
       (<[Z.to_nat sp := Value_Map (delete (Str key) m)]> stack) sp Arg
     = after.
Proof.
  intros Hold Hkey after.
  destruct (run_on_map consts beyond stack sp Arg old
              (<[Str key := AnyNil]> m) key Hold Hkey) as [Hpi Hni].
  destruct (run_on_map consts beyond stack sp Arg old
              (delete (Str key) m) key Hold Hkey) as [Hpd Hnd].
  rewrite Hpi, Hni, Hpd, Hnd. unfold map_index.
  rewrite lookup_insert_eq, lookup_delete_eq. repeat split.
Qed.

(** X5. Integers in the map.  An [int64] element is stored with the
    discriminant [Int] and its two's-complement pattern: a number below
    2^64, the element itself when it is not negative and the element
    plus 2^64 when it is, so that two elements of the [int64] range are
    stored alike only when they are equal.  An [int] element is stored
    as the [int64] of the same number is, in both handlers. *)
Theorem integer_elements_stored (v : Z) :
  let stored := VMLoop.plain_switch FromInterface boolToUint64 (AnyInt64 v) in
  VType stored = ValInt
  /\ 0 <= Num stored < 2 ^ 64
  /\ VMLoop.plain_switch FromInterface boolToUint64 (AnyInt v) = stored
  /\ VMLoop.neo_switch FromInterface boolToUint64 (AnyInt64 v) = stored
  /\ VMLoop.neo_switch FromInterface boolToUint64 (AnyInt v) = stored
  /\ (0 <= v < 2 ^ 63 -> Num stored = v)
  /\ (- 2 ^ 63 <= v < 0 -> Num stored = v + 2 ^ 64)
  /\ (forall w,
        - 2 ^ 63 <= v < 2 ^ 63 -> - 2 ^ 63 <= w < 2 ^ 63 ->
        VMLoop.plain_switch FromInterface boolToUint64 (AnyInt64 w) = stored ->
        w = v).
Proof.
  cbv zeta. simpl. unfold uint64, int64, two64.
  split; [reflexivity|]. split; [apply Z.mod_pos_bound; lia|].
  split; [reflexivity|]. split; [reflexivity|]. split; [reflexivity|].
  split; [|split].
  - intros Hv. apply Z.mod_small. lia.
  - intros Hv. rewrite <- (Z.mod_add v 1 (2 ^ 64)) by lia.
    rewrite Z.mul_1_l. apply Z.mod_small. lia.
  - intros w Hv Hw H. unfold Value_Num in H. inversion H as [Hmod].
    assert (Hd : (w - v) mod 2 ^ 64 = 0).
    { rewrite Zminus_mod, Hmod, Z.sub_diag. reflexivity. }
    apply Z.mod_divide in Hd; [|lia]. destruct Hd as [q Hq]. lia.
Qed.

End HandlerProperties.

(** The handlers on the map [{"a": 7}]: key ["a"] is found by both. *)
Lemma MapGetConst_handlers_agree_witness :
  VMLoop.exec_NeoOpMapGetConst FromInterface_sample boolToUint64_sample
    pool_a_b nothing_beyond [Value_Map map_a] 0 0
  = VMLoop.exec_OpMapGetConst FromInterface_sample boolToUint64_sample
      pool_a_b [Value_Map map_a] 0 0.
Proof.
  exact (proj1 (MapGetConst_handlers_agree
                  FromInterface_sample boolToUint64_sample
                  pool_a_b nothing_beyond [Value_Map map_a] 0 0
                  (Value_Str ValString "a") eq_refl)).
Defined.

(** Key ["b"] is absent: the map on the stack is replaced by [Nil]. *)
Lemma MapGetConst_missing_key_is_nil_witness :
  VMLoop.exec_OpMapGetConst FromInterface_sample boolToUint64_sample
    pool_a_b [Value_Map map_a] 0 1
  = ([Value_Type ValNil], Continue).
Proof.
  exact (proj1 (MapGetConst_missing_key_is_nil
                  FromInterface_sample boolToUint64_sample
                  pool_a_b nothing_beyond [Value_Map map_a] 0 1
                  (Value_Map map_a) (Value_Str ValString "b") map_a
                  eq_refl eq_refl eq_refl eq_refl eq_refl)).
Defined.

(** A string on top of the stack is not a map. *)
Lemma MapGetConst_not_a_map_witness :
  exists msg,
    contains msg "not a map" = true
    /\ VMLoop.exec_OpMapGetConst FromInterface_sample boolToUint64_sample
         pool_a_b [Value_Str ValString "s"] 0 0
       = ([Value_Str ValString "s"], Return_err msg).
Proof.
  destruct (MapGetConst_not_a_map
              FromInterface_sample boolToUint64_sample
              pool_a_b nothing_beyond [Value_Str ValString "s"] 0 0
              (Value_Str ValString "s") eq_refl
              (fun H => eq_ind ValString
                          (fun t => match t with
                                    | ValString => True
                                    | _ => False
                                    end) I ValMap H))
    as (msg & Hc & Hp & _).
  exists msg. split; assumption.
Defined.

(** * Properties of the Neo compiler *)

Import Neo.
Local Open Scope list_scope.

Lemma Opcode_eqb_eq (a b : Opcode) : Opcode_eqb a b = true <-> a = b.
Proof.
  split.
  - destruct a, b; simpl; intros H; try discriminate H; try reflexivity.
    apply Nat.eqb_eq in H. now subst.
  - intros ->. destruct b; simpl; try reflexivity. apply Nat.eqb_refl.
Qed.

Lemma TokenType_eqb_eq (a b : TokenType) : TokenType_eqb a b = true <-> a = b.
Proof.
  split.
  - destruct a, b; simpl; intros H; try discriminate H; try reflexivity.
    apply Nat.eqb_eq in H. now subst.
  - intros ->. destruct b; simpl; try reflexivity. apply Nat.eqb_refl.
Qed.

Lemma TokenType_eqb_neq (a b : TokenType) :
  a <> b -> TokenType_eqb a b = false.
Proof.
  intros H. destruct (TokenType_eqb a b) eqn:E; [|reflexivity].
  apply TokenType_eqb_eq in E. contradiction.
Qed.

(** The read of line 9 is the last element of the buffer, when there is
    one. *)
Lemma lastInst_last (c : NeoCompiler) : lastInst c = last (instructions c).
Proof.
  unfold lastInst, index_Z. rewrite last_lookup.
  destruct (instructions c) as [|i l]; [reflexivity|].
  cbn [length]. destruct (Z.ltb_spec (Z.of_nat (S (length l)) - 1) 0); [lia|].
  f_equal. lia.
Qed.

Lemma emitPush_instructions v c :
  instructions (emitPush v c)
  = instructions c
      ++ [{| Op := NeoOpPush; Arg := Z.of_nat (length (constants c)) |}].
Proof. reflexivity. Qed.

Lemma emitPush_constants v c : constants (emitPush v c) = constants c ++ [v].
Proof. reflexivity. Qed.

Lemma emitPush_peekToken v c : peekToken (emitPush v c) = peekToken c.
Proof. reflexivity. Qed.

(** The slot that a fresh pool index names holds the value just added. *)
Lemma index_Z_fresh {A : Type} (s : list A) (x : A) :
  index_Z (s ++ [x]) (Z.of_nat (length s)) = Some x.
Proof.
  unfold index_Z. destruct (Z.ltb_spec (Z.of_nat (length s)) 0); [lia|].
  rewrite Nat2Z.id. apply list_lookup_middle. reflexivity.
Qed.

Lemma app_singleton_neq {A : Type} (l : list A) (x : A) : l ++ [x] <> l.
Proof.
  intros H. apply (f_equal (@length A)) in H.
  rewrite length_app in H. simpl in H. lia.
Qed.

Section CompilerProperties.

Variable zeroType : ValueType.
Variable TokenType_text : TokenType -> string.
Variable parseExpression :
  NeoCompiler -> NeoCompiler * result compilationValue.

Local Abbreviation argLoop' := (argLoop parseExpression).
Local Abbreviation parseArguments' :=
  (parseArguments zeroType parseExpression).
Local Abbreviation parseCallHead' :=
  (parseCallHead zeroType TokenType_text parseExpression).
Local Abbreviation emitMethod' := (emitMethod zeroType).
Local Abbreviation compile :=
  (parseMemberCallExpression zeroType TokenType_text parseExpression).
Local Abbreviation step := (loopStep parseExpression).
Local Abbreviation steps := (rtc (loopRel parseExpression)).

(** ** Where a failure of the call can come from *)

(** A failure of the argument loop is the loop budget or a failure of
    the expression parser. *)
Lemma argLoop_abort fuel : forall c fc fv n c' f,
  argLoop' fuel c fc fv n = (c', Abort f) ->
  f = OutOfFuel \/ exists c0, parseExpression c0 = (c', Abort f).
Proof.
  induction fuel as [|fuel IH]; intros c fc fv n c' f; simpl.
  - destruct (negb _); intros H; inversion H; now left.
  - destruct (negb _); [discriminate|].
    destruct fc.
    + destruct (parseExpression _) as [c1 [v|f1]] eqn:E.
      * apply IH.
      * intros H; inversion H; subst. right. eauto.
    + destruct (parseExpression _) as [c1 [v|f1]] eqn:E.
      * apply IH.
      * intros H; inversion H; subst. right. eauto.
Qed.

Lemma parseArguments_abort fuel c c' f :
  parseArguments' fuel c = (c', Abort f) ->
  f = OutOfFuel \/ exists c0, parseExpression c0 = (c', Abort f).
Proof.
  unfold parseArguments. destruct (negb _); [|discriminate].
  destruct (parseExpression _) as [c1 [v|f1]] eqn:E.
  - apply argLoop_abort.
  - intros H; inversion H; subst. right. eauto.
Qed.

(** The retained first argument is still a pending constant only while
    it is the only argument. *)
Lemma argLoop_pending fuel : forall c fc fv n c' n' fv',
  argLoop' fuel c fc fv n = (c', Ok (n', true, fv')) ->
  fc = true /\ c' = c /\ n' = n /\ fv' = fv.
Proof.
  induction fuel as [|fuel IH]; intros c fc fv n c' n' fv'; simpl.
  - destruct (negb _); [|discriminate]. intros H; inversion H. auto.
  - destruct (negb _); [intros H; inversion H; auto|].
    destruct fc.
    + destruct (parseExpression _) as [c1 [v|f1]]; [|discriminate].
      intros H. apply IH in H. destruct H as [H _]. discriminate H.
    + destruct (parseExpression _) as [c1 [v|f1]]; [|discriminate].
      intros H. apply IH in H. destruct H as [H _]. discriminate H.
Qed.

Lemma parseArguments_pending fuel c c' n fv :
  parseArguments' fuel c = (c', Ok (n, true, fv)) -> n = 1.
Proof.
  unfold parseArguments. destruct (negb _); [|discriminate].
  destruct (parseExpression _) as [c1 [v|f1]]; [|discriminate].
  intros H. apply argLoop_pending in H. lia.
Qed.

(** Every way in which the head of the call (lines 5-57) stops. *)
Lemma parseCallHead_abort fuel c left c' f :
  parseCallHead' fuel c left = (c', Abort f) ->
  (f = Error subject_msg /\ c' = c
   /\ (isConst left = true
       \/ exists i, last (instructions c) = Some i
                    /\ Op i <> NeoOpGetGlobal))
  \/ (f = GoPanic panic_index /\ isConst left = false
      /\ instructions c = [])
  \/ f = Error "expected method name after '.'"
  \/ f = Error "expected '(' after method name"
  \/ (exists t, f = Error ("expected ')', got " ++ t)%string)
  \/ f = OutOfFuel
  \/ exists c0, parseExpression c0 = (c', Abort f).
Proof.
  unfold parseCallHead. rewrite lastInst_last.
  destruct (isConst left) eqn:Hc.
  { intros H; inversion H; subst. left. auto. }
  destruct (last (instructions c)) as [i|] eqn:Hl.
  2:{ intros H; inversion H; subst. right; left.
      apply last_None in Hl. auto. }
  destruct (Opcode_eqb (Op i) NeoOpGetGlobal) eqn:Hop; cbn [negb].
  2:{ intros H; inversion H; subst. left. repeat split; [].
      right. exists i. split; [reflexivity|].
      intros E. apply Opcode_eqb_eq in E. congruence. }
  destruct (negb (TokenType_eqb (TType (curToken (nextToken c))) TokenIdent)).
  { intros H; inversion H; subst. tauto. }
  destruct (negb (TokenType_eqb (TType (peekToken (nextToken c)))
                    TokenLParen)).
  { intros H; inversion H; subst. tauto. }
  destruct (parseArguments' fuel (nextToken (nextToken c)))
    as [c1 [[[n fc] fv]|f1]] eqn:Ha.
  - destruct (negb (TokenType_eqb (TType (peekToken c1)) TokenRParen));
      [|discriminate].
    intros H; inversion H; subst.
    do 4 right. left. eauto.
  - intros H; inversion H; subst.
    apply parseArguments_abort in Ha. tauto.
Qed.

(** Every way in which the method switch (lines 59-100) stops. *)
Lemma emitMethod_abort method n fc fv c c' f :
  emitMethod' method n fc fv c = (c', Abort f) ->
  (f = Error "get expects 1 argument" /\ method = "get" /\ n <> 1)
  \/ (f = Error "set expects 2 arguments" /\ method = "set" /\ n <> 2)
  \/ (f = Error "has expects 1 argument" /\ method = "has" /\ n <> 1)
  \/ (f = Error "del expects 1 argument" /\ method = "del" /\ n <> 1)
  \/ (f = Error ("unknown map method: " ++ method)%string
      /\ method <> "get" /\ method <> "set"
      /\ method <> "has" /\ method <> "del").
Proof.
  unfold emitMethod.
  destruct (String.eqb_spec method "get") as [->|Hg].
  { destruct (Z.eqb_spec n 1) as [->|Hn]; cbn [negb].
    - destruct (fc && _); simpl; intros H; discriminate H.
    - intros H; inversion H. auto. }
  destruct (String.eqb_spec method "set") as [->|Hs].
  { destruct (Z.eqb_spec n 2) as [->|Hn]; cbn [negb]; [discriminate|].
    intros H; inversion H. auto. }
  destruct (String.eqb_spec method "has") as [->|Hh].
  { destruct fc; (destruct (Z.eqb_spec n 1) as [->|Hn]; cbn [negb];
      [discriminate|]); intros H; inversion H; intuition auto. }
  destruct (String.eqb_spec method "del") as [->|Hd].
  { destruct fc; (destruct (Z.eqb_spec n 1) as [->|Hn]; cbn [negb];
      [discriminate|]); intros H; inversion H; intuition auto. }
  intros H; inversion H. intuition auto.
Qed.

(** C9. With a subject that is not a constant, and under the invariant
    that such a value has its emission recorded in the instruction
    buffer, the index [len(c.instructions)-1] of line 9 lies inside
    the buffer and the read returns its last element; the call then
    ends in no panic unless the expression parser, run on an argument,
    ends in one. *)
Theorem lastInst_read_in_bounds
    (fuel : nat) (c : NeoCompiler) (left : compilationValue) :
  (isConst left = false -> instructions c <> []) ->
  isConst left = false ->
  0 <= Z.of_nat (length (instructions c)) - 1
    < Z.of_nat (length (instructions c))
  /\ (exists i, lastInst c = Some i /\ last (instructions c) = Some i)
  /\ ((forall c0 msg, snd (parseExpression c0) <> Abort (GoPanic msg)) ->
      forall msg, snd (compile fuel c left) <> Abort (GoPanic msg)).
Proof.
  intros Hinv Hc. specialize (Hinv Hc).
  assert (Hlen : (0 < length (instructions c))%nat).
  { destruct (instructions c); [contradiction|simpl; lia]. }
  split; [lia|]. split.
  - rewrite lastInst_last.
    destruct (last (instructions c)) as [i|] eqn:Hl; [eauto|].
    apply last_None in Hl. contradiction.
  - intros Hparse msg. unfold parseMemberCallExpression.
    destruct (parseCallHead' fuel c left)
      as [c1 [[[[method n] fc] fv]|f]] eqn:Hh.
    + destruct (emitMethod' method n fc fv c1) as [c2 [v|f]] eqn:He;
        [discriminate|].
      apply emitMethod_abort in He. simpl. intros E.
      inversion E; subst.
      destruct He as [[H _]|[[H _]|[[H _]|[[H _]|[H _]]]]]; discriminate H.
    + apply parseCallHead_abort in Hh. simpl. intros E.
      inversion E; subst.
      destruct Hh as [[H _]|[[_ [_ H]]|[H|[H|[[t H]|[H|[c0 H]]]]]]];
        try discriminate H.
      * contradiction.
      * apply (Hparse c0 msg). now rewrite H.
Qed.

Local Abbreviation argumentOf' := (argumentOf parseExpression).

(** A failure of the argument loop other than its budget is the failure
    with which the parser returned at line 44, in the state in which it
    returned, after a comma that the loop has reached. *)
Lemma argLoop_abort_steps fuel : forall c fc fv n c' f,
  argLoop' fuel c fc fv n = (c', Abort f) ->
  f = OutOfFuel
  \/ exists cA fcA fvA nA,
       steps (LoopTest c fc fv n) (Advance cA fcA fvA nA)
       /\ parseExpression (nextToken (nextToken cA)) = (c', Abort f).
Proof.
  induction fuel as [|fuel IH]; intros c fc fv n c' f; cbn [argLoop].
  - destruct (negb _); intros H; inversion H; now left.
  - destruct (negb (TokenType_eqb (TType (peekToken c)) TokenComma)) eqn:Hc;
      [discriminate|].
    assert (Hturn : forall cX fcX,
      step (LoopTest c fc fv n) = Some (Advance cX fcX fv n) ->
      match parseExpression (nextToken (nextToken cX)) with
      | (c1, Ok val0) =>
        argLoop' fuel (if isConst val0 then emitPush (val val0) c1 else c1)
          fcX fv (n + 1)
      | (c1, Abort f1) => (c1, Abort f1)
      end = (c', Abort f) ->
      f = OutOfFuel
      \/ exists cA fcA fvA nA,
           steps (LoopTest c fc fv n) (Advance cA fcA fvA nA)
           /\ parseExpression (nextToken (nextToken cA)) = (c', Abort f)).
    { intros cX fcX Hfirst.
      destruct (parseExpression (nextToken (nextToken cX)))
        as [c1 [v|f1]] eqn:E.
      - intros H. apply IH in H.
        destruct H as [H|(cA & fcA & fvA & nA & Hs & Hp)]; [now left|].
        right. exists cA, fcA, fvA, nA. split; [|exact Hp].
        eapply rtc_l; [exact Hfirst|].
        eapply rtc_l; [unfold loopRel; cbn [loopStep]; rewrite E; reflexivity|].
        eapply rtc_l; [unfold loopRel; cbn [loopStep]; reflexivity|].
        exact Hs.
      - intros H; inversion H; subst. right.
        exists cX, fcX, fv, n. split; [|exact E].
        apply rtc_once. exact Hfirst. }
    destruct fc.
    + apply (Hturn (emitPush fv c) false).
      cbn [loopStep]. rewrite Hc. reflexivity.
    + apply (Hturn c false).
      cbn [loopStep]. rewrite Hc. reflexivity.
Qed.

(** The subject error, returned by the head of a call: it is the error
    of the subject checks, or the error of the parser on an argument. *)
Lemma parseCallHead_subject_error fuel c left c' :
  parseCallHead' fuel c left = (c', Abort (Error subject_msg)) ->
  (c' = c
   /\ (isConst left = true
       \/ exists i, last (instructions c) = Some i
                    /\ Op i <> NeoOpGetGlobal))
  \/ (isConst left = false
      /\ (exists g, last (instructions c) = Some g
                    /\ Op g = NeoOpGetGlobal)
      /\ exists c0,
           argumentOf' c c0
           /\ parseExpression c0 = (c', Abort (Error subject_msg))).
Proof.
  unfold parseCallHead. rewrite lastInst_last.
  destruct (isConst left) eqn:Hc.
  { intros H; inversion H; subst. left. auto. }
  destruct (last (instructions c)) as [g|] eqn:Hl; [|discriminate].
  destruct (Opcode_eqb (Op g) NeoOpGetGlobal) eqn:Hop; cbn [negb].
  2:{ intros H; inversion H; subst. left. split; [reflexivity|].
      right. exists g. split; [reflexivity|].
      intros E. apply Opcode_eqb_eq in E. congruence. }
  apply Opcode_eqb_eq in Hop.
  destruct (negb (TokenType_eqb (TType (curToken (nextToken c))) TokenIdent));
    [discriminate|].
  destruct (negb (TokenType_eqb (TType (peekToken (nextToken c)))
                    TokenLParen)); [discriminate|].
  intros H. right. split; [reflexivity|]. split; [eauto|].
  revert H. unfold parseArguments.
  destruct (negb (TokenType_eqb
                    (TType (peekToken (nextToken (nextToken c))))
                    TokenRParen)).
  2:{ destruct (negb (TokenType_eqb
                        (TType (peekToken (nextToken (nextToken c))))
                        TokenRParen)); discriminate. }
  change (nextToken (nextToken (nextToken c))) with (firstArgument c).
  destruct (parseExpression (firstArgument c)) as [c1 [v1|f1]] eqn:E1.
  - destruct (argLoop' fuel c1 (isConst v1) (val v1) (0 + 1))
      as [c2 [[[n fc] fv]|f2]] eqn:Ha.
    + destruct (negb (TokenType_eqb (TType (peekToken c2)) TokenRParen));
        discriminate.
    + intros H; inversion H; subst.
      apply argLoop_abort_steps in Ha.
      destruct Ha as [Ha|(cA & fcA & fvA & nA & Hs & Hp)]; [discriminate|].
      exists (nextToken (nextToken cA)). split; [|exact Hp].
      exact (argument_next parseExpression c c1 cA v1 fcA fvA nA E1 Hs).
  - intros H; inversion H; subst.
    exists (firstArgument c). split; [constructor|exact E1].
Qed.

(** C5, as the code has it.  A constant subject, or a last emitted
    instruction that is not [NeoOpGetGlobal], makes the call fail with
    "member call subject must be an identifier", the same message for
    both, before a token is read or an instruction emitted.  In the
    other direction, a call that returns this error either returns it
    from the subject checks, in the state in which it was entered and
    with one of the two violations, or has a subject that passes both
    checks and returns it from the parser: the parser was called on an
    argument of this call, the first or the one after a comma that the
    loop has reached, it ended in this error, and the call returns the
    error in the state in which the parser returned. *)
Theorem subject_error
    (fuel : nat) (c : NeoCompiler) (left : compilationValue) :
  (isConst left = true
   \/ (exists i, last (instructions c) = Some i /\ Op i <> NeoOpGetGlobal)
   -> compile fuel c left = (c, Abort (Error subject_msg)))
  /\ (forall c',
        compile fuel c left = (c', Abort (Error subject_msg)) ->
        (c' = c
         /\ (isConst left = true
             \/ exists i, last (instructions c) = Some i
                          /\ Op i <> NeoOpGetGlobal))
        \/ (isConst left = false
            /\ (exists g, last (instructions c) = Some g
                          /\ Op g = NeoOpGetGlobal)
            /\ exists c0,
                 argumentOf' c c0
                 /\ parseExpression c0 = (c', Abort (Error subject_msg)))).
Proof.
  split.
  - intros Hbad. unfold parseMemberCallExpression, parseCallHead.
    destruct (isConst left) eqn:Hc; [reflexivity|].
    destruct Hbad as [Hbad|[i [Hl Hop]]]; [discriminate|].
    rewrite lastInst_last, Hl.
    destruct (Opcode_eqb (Op i) NeoOpGetGlobal) eqn:E; [|reflexivity].
    apply Opcode_eqb_eq in E. contradiction.
  - intros c'. unfold parseMemberCallExpression.
    destruct (parseCallHead' fuel c left)
      as [c1 [[[[method n] fc] fv]|f]] eqn:Hh.
    + intros He. apply emitMethod_abort in He.
      destruct He as [[H _]|[[H _]|[[H _]|[[H _]|[H _]]]]]; discriminate H.
    + intros E. inversion E; subst.
      now apply parseCallHead_subject_error in Hh.
Qed.

(** ** The loop budget

    Each turn of the argument loop makes a comma current, so a budget of
    one unit per token left is never used up by a parser that only
    consumes tokens. *)

Lemma nextToken_tokensLeft c : (tokensLeft (nextToken c) <= tokensLeft c)%nat.
Proof.
  unfold tokensLeft, nextToken. cbn [input peekToken].
  destruct (input c) as [|t r]; cbn [hd tl length].
  - simpl. lia.
  - destruct (TokenType_eqb (TType t) TokenEOF),
             (TokenType_eqb (TType (peekToken c)) TokenEOF); lia.
Qed.

Lemma nextToken_tokensLeft_lt c :
  TType (peekToken c) <> TokenEOF ->
  (tokensLeft (nextToken c) < tokensLeft c)%nat.
Proof.
  intros Hne. unfold tokensLeft, nextToken. cbn [input peekToken].
  rewrite (TokenType_eqb_neq _ _ Hne).
  destruct (input c) as [|t r]; cbn [hd tl length].
  - simpl. lia.
  - destruct (TokenType_eqb (TType t) TokenEOF); lia.
Qed.

Lemma flush_tokensLeft (b : bool) (v : Value) (c : NeoCompiler) :
  tokensLeft (if b then emitPush v c else c) = tokensLeft c.
Proof. now destruct b. Qed.

Lemma argLoop_enough_fuel :
  (forall c, (tokensLeft (fst (parseExpression c)) <= tokensLeft c)%nat) ->
  forall fuel c fc fv n c',
    (tokensLeft c <= fuel)%nat ->
    argLoop' fuel c fc fv n = (c', Abort OutOfFuel) ->
    exists c0, parseExpression c0 = (c', Abort OutOfFuel).
Proof.
  intros Hparse. induction fuel as [|fuel IH]; intros c fc fv n c' Hfuel.
  - simpl. destruct (TokenType_eqb (TType (peekToken c)) TokenComma) eqn:Hc;
      cbn [negb]; [|discriminate].
    apply TokenType_eqb_eq in Hc. unfold tokensLeft in Hfuel.
    rewrite Hc in Hfuel. simpl in Hfuel. lia.
  - cbn [argLoop].
    destruct (TokenType_eqb (TType (peekToken c)) TokenComma) eqn:Hc;
      cbn [negb]; [|discriminate].
    apply TokenType_eqb_eq in Hc.
    assert (Hlt : forall b : bool,
      (tokensLeft (nextToken (nextToken (if b then emitPush fv c else c)))
       <= fuel)%nat).
    { intros b.
      pose proof (nextToken_tokensLeft
                    (nextToken (if b then emitPush fv c else c))) as H1.
      pose proof (nextToken_tokensLeft_lt
                    (if b then emitPush fv c else c)) as H2.
      rewrite flush_tokensLeft in H2.
      assert (TType (peekToken (if b then emitPush fv c else c))
              <> TokenEOF) as H3
        by (destruct b; cbn [emitPush emit addConstant peekToken];
            rewrite Hc; discriminate).
      specialize (H2 H3). lia. }
    destruct fc.
    + specialize (Hlt true). cbv iota beta in Hlt.
      pose proof (Hparse (nextToken (nextToken (emitPush fv c)))) as Hp.
      destruct (parseExpression (nextToken (nextToken (emitPush fv c))))
        as [c1 [v|f1]] eqn:E; simpl in Hp.
      * apply IH. rewrite flush_tokensLeft. lia.
      * intros H; inversion H; subst. eauto.
    + specialize (Hlt false). cbv iota beta in Hlt.
      pose proof (Hparse (nextToken (nextToken c))) as Hp.
      destruct (parseExpression (nextToken (nextToken c)))
        as [c1 [v|f1]] eqn:E; simpl in Hp.
      * apply IH. rewrite flush_tokensLeft. lia.
      * intros H; inversion H; subst. eauto.
Qed.

(** The whole call, given one unit of budget per token left, ends in a
    result, an error or a panic; it runs out of budget only if the
    expression parser says so. *)
Lemma compile_enough_fuel fuel c left c' :
  (forall c, (tokensLeft (fst (parseExpression c)) <= tokensLeft c)%nat) ->
  (tokensLeft c <= fuel)%nat ->
  compile fuel c left = (c', Abort OutOfFuel) ->
  exists c0, parseExpression c0 = (c', Abort OutOfFuel).
Proof.
  intros Hparse Hfuel. unfold parseMemberCallExpression.
  destruct (parseCallHead' fuel c left)
    as [c1 [[[[method n] fc] fv]|f]] eqn:Hh.
  - intros He. apply emitMethod_abort in He.
    destruct He as [[H _]|[[H _]|[[H _]|[[H _]|[H _]]]]]; discriminate H.
  - intros H; inversion H; subst. clear H. revert Hh.
    unfold parseCallHead.
    destruct (isConst left); [discriminate|].
    destruct (lastInst c) as [i|]; [|discriminate].
    destruct (negb (Opcode_eqb (Op i) NeoOpGetGlobal)); [discriminate|].
    destruct (negb (TokenType_eqb (TType (curToken (nextToken c)))
                      TokenIdent)); [discriminate|].
    destruct (negb (TokenType_eqb (TType (peekToken (nextToken c)))
                      TokenLParen)); [discriminate|].
    destruct (parseArguments' fuel (nextToken (nextToken c)))
      as [c2 [[[n fc] fv]|f2]] eqn:Ha.
    { destruct (negb (TokenType_eqb (TType (peekToken c2)) TokenRParen));
        discriminate. }
    intros H; inversion H; subst. clear H. revert Ha.
    unfold parseArguments.
    destruct (negb (TokenType_eqb
                      (TType (peekToken (nextToken (nextToken c))))
                      TokenRParen)); [|discriminate].
    pose proof (Hparse (nextToken (nextToken (nextToken c)))) as Hp.
    destruct (parseExpression (nextToken (nextToken (nextToken c))))
      as [c3 [v|f3]] eqn:E; simpl in Hp.
    + apply argLoop_enough_fuel; [assumption|].
      pose proof (nextToken_tokensLeft c).
      pose proof (nextToken_tokensLeft (nextToken c)).
      pose proof (nextToken_tokensLeft (nextToken (nextToken c))). lia.
    + intros H; inversion H; subst. eauto.
Qed.

(** ** The method switch *)

Lemma compile_after_head fuel c left c1 method n fc fv :
  parseCallHead' fuel c left = (c1, Ok (method, n, fc, fv)) ->
  compile fuel c left = emitMethod' method n fc fv c1.
Proof. unfold parseMemberCallExpression. now intros ->. Qed.

Lemma emitMethod_ok method n fc fv c c' v :
  emitMethod' method n fc fv c = (c', Ok v) ->
  v = on_stack zeroType
  /\ ((method = "get" \/ method = "has" \/ method = "del") /\ n = 1
      \/ method = "set" /\ n = 2).
Proof.
  unfold emitMethod.
  destruct (String.eqb_spec method "get") as [->|Hg].
  { destruct (Z.eqb_spec n 1) as [->|Hn]; cbn [negb]; [|discriminate].
    destruct (fc && _); simpl; intros H; inversion H; auto. }
  destruct (String.eqb_spec method "set") as [->|Hs].
  { destruct (Z.eqb_spec n 2) as [->|Hn]; cbn [negb]; [|discriminate].
    intros H; inversion H; auto. }
  destruct (String.eqb_spec method "has") as [->|Hh].
  { destruct fc; (destruct (Z.eqb_spec n 1) as [->|Hn]; cbn [negb];
      [|discriminate]); intros H; inversion H; auto 6. }
  destruct (String.eqb_spec method "del") as [->|Hd].
  { destruct fc; (destruct (Z.eqb_spec n 1) as [->|Hn]; cbn [negb];
      [|discriminate]); intros H; inversion H; auto 6. }
  discriminate.
Qed.

(** C6. Once the head of the call has been read, with [n] arguments
    counted, the switch on the method name decides: [get], [has] and
    [del] with a count other than 1, and [set] with a count other than
    2, end in the error that names the method and its arity; a name
    outside the four ends in the error that names it; and the call
    succeeds exactly when the name is one of the four and the count is
    the one it expects. *)
Theorem method_dispatch
    (fuel : nat) (c c1 : NeoCompiler) (left : compilationValue)
    (method : string) (n : Z) (fc : bool) (fv : Value) :
  parseCallHead' fuel c left = (c1, Ok (method, n, fc, fv)) ->
  (method = "get" -> n <> 1 ->
     snd (compile fuel c left) = Abort (Error "get expects 1 argument"))
  /\ (method = "set" -> n <> 2 ->
        snd (compile fuel c left) = Abort (Error "set expects 2 arguments"))
  /\ (method = "has" -> n <> 1 ->
        snd (compile fuel c left) = Abort (Error "has expects 1 argument"))
  /\ (method = "del" -> n <> 1 ->
        snd (compile fuel c left) = Abort (Error "del expects 1 argument"))
  /\ (method <> "get" -> method <> "set" ->
      method <> "has" -> method <> "del" ->
        snd (compile fuel c left)
        = Abort (Error ("unknown map method: " ++ method)%string))
  /\ (snd (compile fuel c left) = Ok (on_stack zeroType) <->
      (method = "get" \/ method = "has" \/ method = "del") /\ n = 1
      \/ method = "set" /\ n = 2)
  /\ (forall v, snd (compile fuel c left) = Ok v -> v = on_stack zeroType).
Proof.
  intros Hh. rewrite (compile_after_head _ _ _ _ _ _ _ _ Hh).
  destruct (emitMethod' method n fc fv c1) as [c2 [v|f]] eqn:He; simpl.
  - apply emitMethod_ok in He. destruct He as [-> Hok].
    repeat split; intros; subst; try reflexivity; try assumption;
      try congruence;
      exfalso; intuition (subst; try discriminate; try contradiction).
  - apply emitMethod_abort in He.
    repeat split; intros; subst; try discriminate;
      intuition (subst; try discriminate; try contradiction;
                 try reflexivity).
Qed.

(** C10. In the switch, [set], [has] and [del] flush a pending constant
    before they look at the argument count.  So with a pending first
    argument and a wrong count the push of that constant is appended to
    the instruction buffer, and its value to the pool, and only then
    the arity error is returned: the buffer that the caller is left
    with is not the one the switch was entered with.  A call whose
    head was read with these values ends in this way. *)
Theorem arity_error_after_push
    (method : string) (n : Z) (fv : Value) (c1 : NeoCompiler) :
  method = "set" /\ n <> 2
  \/ (method = "has" \/ method = "del") /\ n <> 1 ->
  exists c' msg,
    emitMethod' method n true fv c1 = (c', Abort (Error msg))
    /\ msg = (method ++ (if String.eqb method "set"
                         then " expects 2 arguments"
                         else " expects 1 argument"))%string
    /\ instructions c'
       = instructions c1
           ++ [{| Op := NeoOpPush;
                  Arg := Z.of_nat (length (constants c1)) |}]
    /\ constants c' = constants c1 ++ [fv]
    /\ instructions c' <> instructions c1
    /\ (forall fuel c left,
          parseCallHead' fuel c left = (c1, Ok (method, n, true, fv)) ->
          compile fuel c left = (c', Abort (Error msg))).
Proof.
  intros Hbad. exists (emitPush fv c1).
  assert (He : exists msg,
    emitMethod' method n true fv c1 = (emitPush fv c1, Abort (Error msg))
    /\ msg = (method ++ (if String.eqb method "set"
                         then " expects 2 arguments"
                         else " expects 1 argument"))%string).
  { unfold emitMethod.
    destruct Hbad as [[-> Hn]|[[->| ->] Hn]];
      cbn [String.eqb Ascii.eqb Bool.eqb andb].
    - destruct (Z.eqb_spec n 2); [contradiction|].
      eexists; split; reflexivity.
    - destruct (Z.eqb_spec n 1); [contradiction|].
      eexists; split; reflexivity.
    - destruct (Z.eqb_spec n 1); [contradiction|].
      eexists; split; reflexivity. }
  destruct He as [msg [He Hmsg]]. exists msg.
  repeat split; try assumption.
  - rewrite emitPush_instructions. apply app_singleton_neq.
  - intros fuel c left Hh.
    now rewrite (compile_after_head _ _ _ _ _ _ _ _ Hh).
Qed.

(** ** The argument loop *)

Lemma firstFlushed_step p q :
  firstFlushed p -> loopRel parseExpression p q -> firstFlushed q.
Proof.
  unfold loopRel. destruct p as [c fc fv n|c fc fv n|c fc fv n v|c fc fv n|c f];
    simpl; intros Hp Hq; try discriminate Hq.
  - destruct (negb _); [inversion Hq; exact I|].
    destruct fc; inversion Hq; reflexivity.
  - destruct (parseExpression _) as [c1 [v|f]]; inversion Hq;
      [exact Hp|exact I].
  - inversion Hq. exact I.
Qed.

Lemma firstFlushed_steps p q :
  steps p q -> firstFlushed p -> firstFlushed q.
Proof.
  induction 1 as [|p r q Hpr _ IH]; [auto|].
  intros Hp. apply IH. eapply firstFlushed_step; eauto.
Qed.

Lemma inFlight_bound p : firstFlushed p -> (inFlight p <= 1)%nat.
Proof.
  destruct p as [c fc fv n|c fc fv n|c fc fv n v|c fc fv n|c f]; simpl.
  - destruct fc; simpl; lia.
  - destruct fc; simpl; lia.
  - intros ->. destruct (isConst v); simpl; lia.
  - destruct fc; simpl; lia.
  - lia.
Qed.

(** The loop of the compiler passes through the program points: when
    it returns, the exit point has been reached. *)
Lemma argLoop_steps fuel : forall c fc fv n c' n' fc' fv',
  argLoop' fuel c fc fv n = (c', Ok (n', fc', fv')) ->
  steps (LoopTest c fc fv n) (LoopExit c' fc' fv' n').
Proof.
  induction fuel as [|fuel IH]; intros c fc fv n c' n' fc' fv'; simpl.
  - destruct (negb _) eqn:Hc; [|discriminate]. intros H; inversion H; subst.
    apply rtc_once. unfold loopRel. simpl. now rewrite Hc.
  - destruct (negb _) eqn:Hc.
    { intros H; inversion H; subst.
      apply rtc_once. unfold loopRel. simpl. now rewrite Hc. }
    destruct fc.
    + destruct (parseExpression _) as [c1 [v|f1]] eqn:E; [|discriminate].
      intros H. apply IH in H.
      eapply rtc_l; [unfold loopRel; simpl; rewrite Hc; reflexivity|].
      eapply rtc_l; [unfold loopRel; simpl; rewrite E; reflexivity|].
      eapply rtc_l; [unfold loopRel; simpl; reflexivity|]. exact H.
    + destruct (parseExpression _) as [c1 [v|f1]] eqn:E; [|discriminate].
      intros H. apply IH in H.
      eapply rtc_l; [unfold loopRel; simpl; rewrite Hc; reflexivity|].
      eapply rtc_l; [unfold loopRel; simpl; rewrite E; reflexivity|].
      eapply rtc_l; [unfold loopRel; simpl; reflexivity|]. exact H.
Qed.

Lemma nsteps_from_end (k : nat) (p q : loopPoint) :
  step p = None -> nsteps (loopRel parseExpression) k p q -> k = 0%nat /\ q = p.
Proof.
  intros Hend Hn. inversion Hn as [|k1 x y z HR Hrest]; subst; [auto|].
  unfold loopRel in HR. rewrite Hend in HR. discriminate.
Qed.

(** The loop of the compiler is the run through the program points:
    when the points end in a result, the loop returns that result, given
    one unit of budget for every three steps. *)
Lemma nsteps_argLoop : forall (k : nat) c fc fv n p r,
  nsteps (loopRel parseExpression) k (LoopTest c fc fv n) p ->
  resultOf p = Some r ->
  forall fuel, (k <= 3 * fuel + 1)%nat -> argLoop' fuel c fc fv n = r.
Proof.
  induction k as [k IH] using lt_wf_ind.
  intros c fc fv n p r Hn Hres fuel Hfuel.
  inversion Hn as [|k1 x q z HR Hrest]; subst; [discriminate Hres|].
  unfold loopRel in HR. cbn [loopStep] in HR.
  destruct (negb (TokenType_eqb (TType (peekToken c)) TokenComma)) eqn:Hc.
  { inversion HR; subst.
    apply nsteps_from_end in Hrest; [|reflexivity].
    destruct Hrest as [_ ->]. cbn [resultOf] in Hres. inversion Hres.
    destruct fuel; cbn [argLoop]; rewrite Hc; reflexivity. }
  assert (Hturn : forall cX,
    nsteps (loopRel parseExpression) k1 (Advance cX false fv n) p ->
    match parseExpression (nextToken (nextToken cX)) with
    | (c1, Ok val0) =>
      argLoop' (pred fuel)
        (if isConst val0 then emitPush (val val0) c1 else c1)
        false fv (n + 1)
    | (c1, Abort f1) => (c1, Abort f1)
    end = r /\ (1 <= fuel)%nat).
  { intros cX Hadv.
    inversion Hadv as [|k2 x q2 z HR2 Hrest2]; subst; [discriminate Hres|].
    unfold loopRel in HR2. cbn [loopStep] in HR2.
    destruct (parseExpression (nextToken (nextToken cX)))
      as [c1 [v|f1]] eqn:E; inversion HR2; subst.
    - inversion Hrest2 as [|k3 x q3 z HR3 Hrest3]; subst;
        [discriminate Hres|].
      unfold loopRel in HR3. cbn [loopStep] in HR3. inversion HR3; subst.
      split; [|lia].
      apply (IH k3 ltac:(lia) _ _ _ _ p r Hrest3 Hres). lia.
    - apply nsteps_from_end in Hrest2; [|reflexivity].
      destruct Hrest2 as [-> ->]. cbn [resultOf] in Hres.
      inversion Hres. split; [reflexivity|lia]. }
  destruct fc; inversion HR; subst.
  - destruct (Hturn _ Hrest) as [Hr Hf].
    destruct fuel as [|fuel]; [lia|]. cbn [argLoop]. rewrite Hc. exact Hr.
  - destruct (Hturn _ Hrest) as [Hr Hf].
    destruct fuel as [|fuel]; [lia|]. cbn [argLoop]. rewrite Hc. exact Hr.
Qed.

(** C4. The argument loop of the compiler, lines 37-52, and the constants
    it holds back.  Cut at its program points, the loop holds back at
    most one constant at every point it reaches; a comma met while the
    first argument is a pending constant makes it emit the push of that
    literal, after which nothing is pending and only then the next
    argument is parsed; an argument that the parser returns as a
    constant is pushed at once, before the next comma is tested.  The
    function [argLoop] is this run and no other: what it returns is the
    end that the points reach, and every end that the points reach is
    what it returns, given budget.  Said of the function itself: at a
    comma, with the first constant pending, it goes on as from the state
    in which that constant has been pushed; and once the parser has
    returned the next argument, it goes on from the state in which that
    argument, if it is a constant, has been pushed, with nothing
    pending. *)
Theorem one_constant_in_flight
    (c : NeoCompiler) (fc : bool) (fv : Value) (n : Z) :
  (forall p,
     steps (LoopTest c fc fv n) p ->
     (inFlight p <= 1)%nat
     /\ (forall c0 fv0 n0,
           p = LoopTest c0 true fv0 n0 ->
           TType (peekToken c0) = TokenComma ->
           exists c1,
             step p = Some (Advance c1 false fv0 n0)
             /\ instructions c1
                = instructions c0
                    ++ [{| Op := NeoOpPush;
                           Arg := Z.of_nat (length (constants c0)) |}]
             /\ index_Z (constants c1) (Z.of_nat (length (constants c0)))
                = Some fv0
             /\ inFlight (Advance c1 false fv0 n0) = 0%nat
             /\ forall q, step (Advance c1 false fv0 n0) = Some q ->
                  exists r, parseExpression (nextToken (nextToken c1))
                            = (pointCompiler q, r))
     /\ (forall c0 fc0 fv0 n0 v,
           p = Parsed c0 fc0 fv0 n0 v ->
           fc0 = false
           /\ (isConst v = true ->
               exists c1,
                 step p = Some (LoopTest c1 false fv0 (n0 + 1))
                 /\ instructions c1
                    = instructions c0
                        ++ [{| Op := NeoOpPush;
                               Arg := Z.of_nat (length (constants c0)) |}]
                 /\ index_Z (constants c1) (Z.of_nat (length (constants c0)))
                    = Some (val v)
                 /\ inFlight (LoopTest c1 false fv0 (n0 + 1)) = 0%nat)))
  /\ (forall fuel c' n' fc' fv',
        argLoop' fuel c fc fv n = (c', Ok (n', fc', fv')) ->
        steps (LoopTest c fc fv n) (LoopExit c' fc' fv' n'))
  /\ (forall fuel c' f,
        argLoop' fuel c fc fv n = (c', Abort f) ->
        f = OutOfFuel \/ steps (LoopTest c fc fv n) (LoopAbort c' f))
  /\ (forall p r,
        steps (LoopTest c fc fv n) p ->
        resultOf p = Some r ->
        exists fuel0, forall fuel,
          (fuel0 <= fuel)%nat -> argLoop' fuel c fc fv n = r)
  /\ (TType (peekToken c) = TokenComma ->
      forall fuel,
        argLoop' (S fuel) c true fv n
        = argLoop' (S fuel) (emitPush fv c) false fv n
        /\ instructions (emitPush fv c)
           = instructions c
               ++ [{| Op := NeoOpPush;
                      Arg := Z.of_nat (length (constants c)) |}]
        /\ index_Z (constants (emitPush fv c))
             (Z.of_nat (length (constants c))) = Some fv)
  /\ (TType (peekToken c) = TokenComma ->
      forall fuel c1 v,
        parseExpression (nextToken (nextToken c)) = (c1, Ok v) ->
        argLoop' (S fuel) c false fv n
        = argLoop' fuel (if isConst v then emitPush (val v) c1 else c1)
            false fv (n + 1)
        /\ instructions (if isConst v then emitPush (val v) c1 else c1)
           = instructions c1 ++ pushFor v c1
        /\ constants (if isConst v then emitPush (val v) c1 else c1)
           = constants c1 ++ poolFor v).
Proof.
  split; [|split; [|split; [|split; [|split]]]].
  - intros p Hreach.
    assert (Hinv : firstFlushed p)
      by (apply (firstFlushed_steps _ _ Hreach); exact I).
    split; [now apply inFlight_bound|]. split.
    + intros c0 fv0 n0 -> Hcomma. exists (emitPush fv0 c0).
      split; [simpl; rewrite Hcomma; reflexivity|].
      split; [reflexivity|].
      split; [rewrite emitPush_constants; apply index_Z_fresh|].
      split; [reflexivity|].
      intros q. simpl.
      destruct (parseExpression _) as [c2 [v|f]]; intros H; inversion H;
        simpl; eauto.
    + intros c0 fc0 fv0 n0 v ->. simpl in Hinv. subst fc0.
      split; [reflexivity|]. intros Hv. exists (emitPush (val v) c0).
      split; [simpl; now rewrite Hv|].
      split; [reflexivity|].
      split; [rewrite emitPush_constants; apply index_Z_fresh|reflexivity].
  - intros fuel c' n' fc' fv'. apply argLoop_steps.
  - intros fuel c' f H. apply argLoop_abort_steps in H.
    destruct H as [H|(cA & fcA & fvA & nA & Hs & Hp)]; [now left|].
    right. eapply rtc_r; [exact Hs|].
    unfold loopRel. cbn [loopStep]. now rewrite Hp.
  - intros p r Hreach Hres. apply rtc_nsteps_1 in Hreach.
    destruct Hreach as [k Hk]. exists k. intros fuel Hfuel.
    apply (nsteps_argLoop k c fc fv n p r Hk Hres). lia.
  - intros Hcomma fuel.
    split; [|split; [reflexivity|]].
    + cbn [argLoop]. rewrite emitPush_peekToken, Hcomma. reflexivity.
    + rewrite emitPush_constants. apply index_Z_fresh.
  - intros Hcomma fuel c1 v Hparse.
    split; [|split].
    + cbn [argLoop]. rewrite Hcomma. cbn [TokenType_eqb negb].
      rewrite Hparse. reflexivity.
    + unfold pushFor. destruct (isConst v); [reflexivity|].
      now rewrite app_nil_r.
    + unfold poolFor. destruct (isConst v); [reflexivity|].
      now rewrite app_nil_r.
Qed.

(** ** Whole calls *)

Lemma flush_peekToken (v : compilationValue) (c : NeoCompiler) :
  peekToken (if isConst v then emitPush (val v) c else c) = peekToken c.
Proof. now destruct (isConst v). Qed.

Lemma flush_instructions (v : compilationValue) (c : NeoCompiler) :
  instructions (if isConst v then emitPush (val v) c else c)
  = instructions c ++ pushFor v c.
Proof.
  unfold pushFor. destruct (isConst v); [reflexivity|].
  now rewrite app_nil_r.
Qed.

Lemma flush_constants (v : compilationValue) (c : NeoCompiler) :
  constants (if isConst v then emitPush (val v) c else c)
  = constants c ++ poolFor v.
Proof.
  unfold poolFor. destruct (isConst v); [reflexivity|].
  now rewrite app_nil_r.
Qed.

(** With a loaded variable as the subject, a method name and an opening
    parenthesis, the head of the call comes down to its argument
    list. *)
Lemma parseCallHead_enter fuel c left g method :
  isConst left = false ->
  last (instructions c) = Some g ->
  Op g = NeoOpGetGlobal ->
  peekToken c = {| TType := TokenIdent; Literal := method |} ->
  TType (peekToken (nextToken c)) = TokenLParen ->
  parseCallHead' fuel c left
  = match parseArguments' fuel (nextToken (nextToken c)) with
    | (c1, Abort f) => (c1, Abort f)
    | (c1, Ok (n, fc, fv)) =>
      if negb (TokenType_eqb (TType (peekToken c1)) TokenRParen)
      then (c1, Abort (Error ("expected ')', got " ++
                              TokenType_text (TType (peekToken c1)))%string))
      else (nextToken c1, Ok (method, n, fc, fv))
    end.
Proof.
  intros Hc Hl Hop Hm Hlp. unfold parseCallHead.
  rewrite Hc, lastInst_last, Hl, Hop. cbn [Opcode_eqb negb].
  replace (curToken (nextToken c)) with (peekToken c) by reflexivity.
  rewrite Hm, Hlp. reflexivity.
Qed.

(** The fast path of [get] in the Neo compiler. *)
Lemma get_const_neo fuel c left g c3 v K :
  isConst left = false ->
  last (instructions c) = Some g ->
  Op g = NeoOpGetGlobal ->
  peekToken c = {| TType := TokenIdent; Literal := "get" |} ->
  TType (peekToken (nextToken c)) = TokenLParen ->
  TType (peekToken (nextToken (nextToken c))) <> TokenRParen ->
  parseExpression (nextToken (nextToken (nextToken c)))
  = (c3, Ok {| isConst := true; val := v |}) ->
  VType v = ValString ->
  Str v = K ->
  TType (peekToken c3) = TokenRParen ->
  exists c' k slot emitted,
    compile fuel c left = (c', Ok (on_stack zeroType))
    /\ instructions c' = instructions c3 ++ emitted
    /\ emitted = [{| Op := NeoOpMapGetConst; Arg := k |}]
    /\ index_Z (constants c') k = Some slot
    /\ VType slot = ValString /\ Str slot = K
    /\ constants c' = constants c3 ++ [slot]
    /\ countOp NeoOpMapGetConst emitted = 1%nat
    /\ countOp NeoOpMapGet emitted = 0%nat
    /\ countOp NeoOpPush emitted = 0%nat.
Proof.
  intros Hc Hl Hop Hm Hlp Hnr Hparse Hty HK Hrp.
  exists (emit NeoOpMapGetConst (Z.of_nat (length (constants c3)))
            (fst (addConstant v (nextToken c3)))),
         (Z.of_nat (length (constants c3))), v,
         [{| Op := NeoOpMapGetConst;
             Arg := Z.of_nat (length (constants c3)) |}].
  repeat split; try assumption; try reflexivity.
  - unfold parseMemberCallExpression.
    rewrite (parseCallHead_enter fuel c left g "get" Hc Hl Hop Hm Hlp).
    unfold parseArguments.
    rewrite (TokenType_eqb_neq _ _ Hnr). cbn [negb]. rewrite Hparse.
    cbn [isConst val].
    assert (Hloop : argLoop' fuel c3 true v (0 + 1) = (c3, Ok (1, true, v))).
    { destruct fuel; simpl; rewrite Hrp; reflexivity. }
    rewrite Hloop, Hrp. cbn [TokenType_eqb negb].
    unfold emitMethod. cbn [String.eqb Ascii.eqb Bool.eqb andb Z.eqb negb
                            Pos.eqb].
    rewrite Hty. reflexivity.
  - simpl. apply index_Z_fresh.
Qed.

(** C3. A call [m.set(k, v)]: the subject is a loaded variable, the
    parser returns the two arguments, a comma between them and the
    closing parenthesis after them.  The call succeeds; the first
    argument, when it is a constant, is pushed before the second is
    parsed, the second, when it is a constant, is pushed once parsed,
    and nothing is pushed for an argument that the parser has already
    emitted; the call then ends the buffer with one [NeoOpMapSet].  No
    [NeoOpMapGetConst] is emitted, whether the key is a literal or
    not. *)
Theorem set_materializes_both
    (fuel : nat) (c c3 c5 : NeoCompiler) (left k v : compilationValue)
    (g : Instruction) :
  isConst left = false ->
  last (instructions c) = Some g ->
  Op g = NeoOpGetGlobal ->
  peekToken c = {| TType := TokenIdent; Literal := "set" |} ->
  TType (peekToken (nextToken c)) = TokenLParen ->
  TType (peekToken (nextToken (nextToken c))) <> TokenRParen ->
  parseExpression (nextToken (nextToken (nextToken c))) = (c3, Ok k) ->
  TType (peekToken c3) = TokenComma ->
  parseExpression
    (nextToken (nextToken (if isConst k then emitPush (val k) c3 else c3)))
  = (c5, Ok v) ->
  TType (peekToken c5) = TokenRParen ->
  (1 <= fuel)%nat ->
  exists c4 c',
    c4 = (if isConst k then emitPush (val k) c3 else c3)
    /\ instructions c4 = instructions c3 ++ pushFor k c3
    /\ constants c4 = constants c3 ++ poolFor k
    /\ compile fuel c left = (c', Ok (on_stack zeroType))
    /\ instructions c'
       = instructions c5 ++ pushFor v c5
           ++ [{| Op := NeoOpMapSet; Arg := 0 |}]
    /\ constants c' = constants c5 ++ poolFor v
    /\ countOp NeoOpPush (pushFor k c3) = Nat.b2n (isConst k)
    /\ countOp NeoOpPush (pushFor v c5) = Nat.b2n (isConst v)
    /\ countOp NeoOpMapSet
         (pushFor k c3 ++ pushFor v c5
            ++ [{| Op := NeoOpMapSet; Arg := 0 |}]) = 1%nat
    /\ countOp NeoOpMapGetConst
         (pushFor k c3 ++ pushFor v c5
            ++ [{| Op := NeoOpMapSet; Arg := 0 |}]) = 0%nat.
Proof.
  intros Hc Hl Hop Hm Hlp Hnr Hp1 Hcomma Hp2 Hrp Hfuel.
  exists (if isConst k then emitPush (val k) c3 else c3),
         (emit NeoOpMapSet 0
            (nextToken (if isConst v then emitPush (val v) c5 else c5))).
  split; [reflexivity|].
  split; [apply flush_instructions|].
  split; [apply flush_constants|].
  split; [|split; [|split; [|repeat split]]].
  - unfold parseMemberCallExpression.
    rewrite (parseCallHead_enter fuel c left g "set" Hc Hl Hop Hm Hlp).
    unfold parseArguments.
    rewrite (TokenType_eqb_neq _ _ Hnr). cbn [negb]. rewrite Hp1.
    destruct fuel as [|fuel]; [lia|].
    assert (Hloop :
      argLoop' (S fuel) c3 (isConst k) (val k) (0 + 1)
      = (if isConst v then emitPush (val v) c5 else c5,
         Ok (2, false, val k))).
    { cbn [argLoop]. rewrite Hcomma. cbn [TokenType_eqb negb].
      assert (Hexit : forall c6,
        TType (peekToken c6) = TokenRParen ->
        argLoop' fuel c6 false (val k) (0 + 1 + 1)
        = (c6, Ok (2, false, val k))).
      { intros c6 H6. destruct fuel; simpl; rewrite H6; reflexivity. }
      destruct (isConst k); rewrite Hp2; apply Hexit;
        now rewrite flush_peekToken. }
    rewrite Hloop, flush_peekToken, Hrp. cbn [TokenType_eqb negb].
    reflexivity.
  - cbn [emit instructions nextToken].
    now rewrite flush_instructions, <- app_assoc.
  - cbn [emit constants nextToken]. apply flush_constants.
  - unfold pushFor. now destruct (isConst k).
  - unfold pushFor. now destruct (isConst v).
  - unfold pushFor. now destruct (isConst k), (isConst v).
  - unfold pushFor. now destruct (isConst k), (isConst v).
Qed.

(** ** The compiler beyond the claims *)

(** What a head that has been read tells about the call. *)
Lemma parseCallHead_ok fuel c left c1 method n fc fv :
  parseCallHead' fuel c left = (c1, Ok (method, n, fc, fv)) ->
  exists g c0,
    isConst left = false
    /\ last (instructions c) = Some g /\ Op g = NeoOpGetGlobal
    /\ peekToken c = {| TType := TokenIdent; Literal := method |}
    /\ TType (peekToken (nextToken c)) = TokenLParen
    /\ parseArguments' fuel (nextToken (nextToken c)) = (c0, Ok (n, fc, fv))
    /\ TType (peekToken c0) = TokenRParen
    /\ c1 = nextToken c0.
Proof.
  unfold parseCallHead. rewrite lastInst_last.
  destruct (isConst left); [discriminate|].
  destruct (last (instructions c)) as [g|]; [|discriminate].
  destruct (Opcode_eqb (Op g) NeoOpGetGlobal) eqn:Hop; cbn [negb];
    [|discriminate].
  apply Opcode_eqb_eq in Hop.
  replace (curToken (nextToken c)) with (peekToken c) by reflexivity.
  destruct (TokenType_eqb (TType (peekToken c)) TokenIdent) eqn:Hid;
    cbn [negb]; [|discriminate].
  apply TokenType_eqb_eq in Hid.
  destruct (TokenType_eqb (TType (peekToken (nextToken c))) TokenLParen)
    eqn:Hlp; cbn [negb]; [|discriminate].
  apply TokenType_eqb_eq in Hlp.
  destruct (parseArguments' fuel (nextToken (nextToken c)))
    as [c0 [[[n0 fc0] fv0]|f]] eqn:Ha; [|discriminate].
  destruct (TokenType_eqb (TType (peekToken c0)) TokenRParen) eqn:Hrp;
    cbn [negb]; [|discriminate].
  apply TokenType_eqb_eq in Hrp.
  intros H; inversion H; subst. exists g, c0.
  repeat split; try assumption; try reflexivity.
  destruct (peekToken c) as [t l]. simpl in Hid. now subst.
Qed.

Lemma parseCallHead_pending fuel c left c1 method n fv :
  parseCallHead' fuel c left = (c1, Ok (method, n, true, fv)) -> n = 1.
Proof.
  intros H. apply parseCallHead_ok in H.
  destruct H as (g & c0 & _ & _ & _ & _ & _ & Ha & _).
  now apply parseArguments_pending in Ha.
Qed.

(** The head of a call with one argument. *)
Lemma single_argument_head fuel c left g method c3 v :
  isConst left = false ->
  last (instructions c) = Some g ->
  Op g = NeoOpGetGlobal ->
  peekToken c = {| TType := TokenIdent; Literal := method |} ->
  TType (peekToken (nextToken c)) = TokenLParen ->
  TType (peekToken (nextToken (nextToken c))) <> TokenRParen ->
  parseExpression (nextToken (nextToken (nextToken c))) = (c3, Ok v) ->
  TType (peekToken c3) = TokenRParen ->
  parseCallHead' fuel c left
  = (nextToken c3, Ok (method, 1, isConst v, val v)).
Proof.
  intros Hc Hl Hop Hm Hlp Hnr Hparse Hrp.
  rewrite (parseCallHead_enter fuel c left g method Hc Hl Hop Hm Hlp).
  unfold parseArguments.
  rewrite (TokenType_eqb_neq _ _ Hnr). cbn [negb]. rewrite Hparse.
  assert (Hloop : argLoop' fuel c3 (isConst v) (val v) (0 + 1)
                  = (c3, Ok (1, isConst v, val v))).
  { destruct fuel; simpl; rewrite Hrp; reflexivity. }
  rewrite Hloop, Hrp. reflexivity.
Qed.

(** X6. [m.get(e)] where the argument is not a constant string: the
    parser has emitted it, or returns it as a constant of another type.
    The call succeeds and ends the buffer with the push of the constant,
    if it is one, and one [NeoOpMapGet]; it emits no
    [NeoOpMapGetConst], and a pool slot only for the pushed constant. *)
Theorem get_generic_path
    (fuel : nat) (c c3 : NeoCompiler) (left v : compilationValue)
    (g : Instruction) :
  isConst left = false ->
  last (instructions c) = Some g ->
  Op g = NeoOpGetGlobal ->
  peekToken c = {| TType := TokenIdent; Literal := "get" |} ->
  TType (peekToken (nextToken c)) = TokenLParen ->
  TType (peekToken (nextToken (nextToken c))) <> TokenRParen ->
  parseExpression (nextToken (nextToken (nextToken c))) = (c3, Ok v) ->
  isConst v = false \/ VType (val v) <> ValString ->
  TType (peekToken c3) = TokenRParen ->
  exists c',
    compile fuel c left = (c', Ok (on_stack zeroType))
    /\ instructions c'
       = instructions c3 ++ pushFor v c3
           ++ [{| Op := NeoOpMapGet; Arg := 0 |}]
    /\ constants c' = constants c3 ++ poolFor v
    /\ countOp NeoOpMapGetConst
         (pushFor v c3 ++ [{| Op := NeoOpMapGet; Arg := 0 |}]) = 0%nat
    /\ countOp NeoOpMapGet
         (pushFor v c3 ++ [{| Op := NeoOpMapGet; Arg := 0 |}]) = 1%nat.
Proof.
  intros Hc Hl Hop Hm Hlp Hnr Hparse Hslow Hrp.
  exists (emit NeoOpMapGet 0
            (if isConst v then emitPush (val v) (nextToken c3)
             else nextToken c3)).
  split; [|split; [|split; [|split]]].
  - rewrite (compile_after_head _ _ _ _ _ _ _ _
               (single_argument_head fuel c left g "get" c3 v
                  Hc Hl Hop Hm Hlp Hnr Hparse Hrp)).
    unfold emitMethod. cbn [String.eqb Ascii.eqb Bool.eqb Z.eqb Pos.eqb negb].
    assert (Hno : isConst v && ValueType_eqb (VType (val v)) ValString
                  = false).
    { destruct Hslow as [->|Hty]; [reflexivity|].
      rewrite (ValueType_eqb_neq _ _ Hty). apply andb_false_r. }
    rewrite Hno. reflexivity.
  - cbn [emit instructions]. unfold pushFor.
    destruct (isConst v); simpl; now rewrite <- ?app_assoc.
  - cbn [emit constants]. unfold poolFor.
    destruct (isConst v); simpl; now rewrite ?app_nil_r.
  - unfold pushFor. now destruct (isConst v).
  - unfold pushFor. now destruct (isConst v).
Qed.

(** X7. [m.has(k)] and [m.del(k)] with one argument: the call succeeds
    and ends the buffer with the push of the argument, when it is a
    constant, and one [NeoOpMapHas], respectively [NeoOpMapDel].  A
    literal key is pushed like any constant: these two methods have no
    constant-key form. *)
Theorem has_del_path
    (fuel : nat) (c c3 : NeoCompiler) (left v : compilationValue)
    (g : Instruction) (method : string) (op : Opcode) :
  method = "has" /\ op = NeoOpMapHas \/ method = "del" /\ op = NeoOpMapDel ->
  isConst left = false ->
  last (instructions c) = Some g ->
  Op g = NeoOpGetGlobal ->
  peekToken c = {| TType := TokenIdent; Literal := method |} ->
  TType (peekToken (nextToken c)) = TokenLParen ->
  TType (peekToken (nextToken (nextToken c))) <> TokenRParen ->
  parseExpression (nextToken (nextToken (nextToken c))) = (c3, Ok v) ->
  TType (peekToken c3) = TokenRParen ->
  exists c',
    compile fuel c left = (c', Ok (on_stack zeroType))
    /\ instructions c'
       = instructions c3 ++ pushFor v c3 ++ [{| Op := op; Arg := 0 |}]
    /\ constants c' = constants c3 ++ poolFor v
    /\ countOp NeoOpMapGetConst
         (pushFor v c3 ++ [{| Op := op; Arg := 0 |}]) = 0%nat
    /\ countOp NeoOpPush
         (pushFor v c3 ++ [{| Op := op; Arg := 0 |}]) = Nat.b2n (isConst v).
Proof.
  intros Hmo Hc Hl Hop Hm Hlp Hnr Hparse Hrp.
  exists (emit op 0
            (if isConst v then emitPush (val v) (nextToken c3)
             else nextToken c3)).
  split; [|split; [|split; [|split]]].
  - rewrite (compile_after_head _ _ _ _ _ _ _ _
               (single_argument_head fuel c left g method c3 v
                  Hc Hl Hop Hm Hlp Hnr Hparse Hrp)).
    unfold emitMethod.
    destruct Hmo as [[-> ->]|[-> ->]];
      cbn [String.eqb Ascii.eqb Bool.eqb Z.eqb Pos.eqb negb];
      destruct (isConst v); reflexivity.
  - cbn [emit instructions]. unfold pushFor.
    destruct (isConst v); simpl; now rewrite <- ?app_assoc.
  - cbn [emit constants]. unfold poolFor.
    destruct (isConst v); simpl; now rewrite ?app_nil_r.
  - unfold pushFor. destruct Hmo as [[_ ->]|[_ ->]];
      now destruct (isConst v).
  - unfold pushFor. destruct Hmo as [[_ ->]|[_ ->]];
      now destruct (isConst v).
Qed.

(** X8. The three syntax errors of the head, for a subject that passes
    the subject checks.  A token after the dot that is not an identifier
    gives "expected method name after '.'"; an identifier that is not
    followed by an opening parenthesis gives "expected '(' after method
    name"; in both cases one token has been consumed and nothing else
    has changed.  An argument list that is not followed by a closing
    parenthesis gives "expected ')', got" and the kind of the token
    found, in the state in which the arguments left the compiler. *)
Theorem head_syntax_errors
    (fuel : nat) (c : NeoCompiler) (left : compilationValue)
    (g : Instruction) :
  isConst left = false ->
  last (instructions c) = Some g ->
  Op g = NeoOpGetGlobal ->
  (TType (peekToken c) <> TokenIdent ->
     compile fuel c left
     = (nextToken c, Abort (Error "expected method name after '.'")))
  /\ (TType (peekToken c) = TokenIdent ->
      TType (peekToken (nextToken c)) <> TokenLParen ->
        compile fuel c left
        = (nextToken c, Abort (Error "expected '(' after method name")))
  /\ (forall c1 n fc fv,
        TType (peekToken c) = TokenIdent ->
        TType (peekToken (nextToken c)) = TokenLParen ->
        parseArguments' fuel (nextToken (nextToken c))
        = (c1, Ok (n, fc, fv)) ->
        TType (peekToken c1) <> TokenRParen ->
        compile fuel c left
        = (c1, Abort (Error ("expected ')', got "
                             ++ TokenType_text (TType (peekToken c1)))%string)))
  /\ instructions (nextToken c) = instructions c
  /\ constants (nextToken c) = constants c.
Proof.
  intros Hc Hl Hop.
  split; [|split; [|split; [|split; reflexivity]]].
  - intros Hid. unfold parseMemberCallExpression, parseCallHead.
    rewrite Hc, lastInst_last, Hl, Hop. cbn [Opcode_eqb negb].
    replace (curToken (nextToken c)) with (peekToken c) by reflexivity.
    rewrite (TokenType_eqb_neq _ _ Hid). reflexivity.
  - intros Hid Hlp. unfold parseMemberCallExpression, parseCallHead.
    rewrite Hc, lastInst_last, Hl, Hop. cbn [Opcode_eqb negb].
    replace (curToken (nextToken c)) with (peekToken c) by reflexivity.
    rewrite Hid, (TokenType_eqb_neq _ _ Hlp). reflexivity.
  - intros c1 n fc fv Hid Hlp Ha Hrp.
    unfold parseMemberCallExpression, parseCallHead.
    rewrite Hc, lastInst_last, Hl, Hop. cbn [Opcode_eqb negb].
    replace (curToken (nextToken c)) with (peekToken c) by reflexivity.
    rewrite Hid, Hlp. cbn [TokenType_eqb negb].
    rewrite Ha, (TokenType_eqb_neq _ _ Hrp). reflexivity.
Qed.

(** X9. [get], [has] and [del] report a wrong argument count without
    emitting anything of their own: the compiler is returned in the
    state in which the head of the call left it.  (For [has] and [del]
    the flush that precedes the test finds nothing to flush, since a
    pending first constant means one argument.) *)
Theorem arity_error_clean
    (fuel : nat) (c c1 : NeoCompiler) (left : compilationValue)
    (method : string) (n : Z) (fc : bool) (fv : Value) :
  parseCallHead' fuel c left = (c1, Ok (method, n, fc, fv)) ->
  method = "get" \/ method = "has" \/ method = "del" ->
  n <> 1 ->
  compile fuel c left
  = (c1, Abort (Error (method ++ " expects 1 argument")%string)).
Proof.
  intros Hh Hm Hn.
  rewrite (compile_after_head _ _ _ _ _ _ _ _ Hh).
  assert (Hfc : fc = false).
  { destruct fc; [|reflexivity].
    apply parseCallHead_pending in Hh. contradiction. }
  subst fc. unfold emitMethod.
  destruct (Z.eqb_spec n 1) as [->|_]; [contradiction|].
  destruct Hm as [->|[->| ->]]; reflexivity.
Qed.

(** X10. Where a successful call leaves the token stream: the current
    token is the closing parenthesis of the call, and the value returned
    is not a constant, so that the caller finds the result on the
    stack. *)
Theorem compile_ok_position
    (fuel : nat) (c c' : NeoCompiler) (left v : compilationValue) :
  compile fuel c left = (c', Ok v) ->
  TType (curToken c') = TokenRParen
  /\ isConst v = false
  /\ isConst left = false.
Proof.
  intros Hrun. unfold parseMemberCallExpression in Hrun.
  destruct (parseCallHead' fuel c left)
    as [c1 [[[[method n] fc] fv]|f]] eqn:Hh; [|discriminate].
  pose proof (emitMethod_ok _ _ _ _ _ _ _ Hrun) as [-> _].
  apply parseCallHead_ok in Hh.
  destruct Hh as (g & c0 & Hc & _ & _ & _ & _ & _ & Hrp & ->).
  split; [|split; [reflexivity|exact Hc]].
  assert (Hcur : curToken c' = curToken (nextToken c0)).
  { revert Hrun. unfold emitMethod.
    repeat match goal with
           | |- context [String.eqb ?a ?b] => destruct (String.eqb a b)
           | |- context [negb ?b] => destruct (negb b)
           | |- context [andb ?a ?b] => destruct (andb a b)
           end;
      destruct fc; simpl; intros H; inversion H; reflexivity. }
  rewrite Hcur. exact Hrp.
Qed.

(** ** What a call keeps *)

(** A relation between compiler states that the steps of the compiler
    respect is respected by the whole call. *)
Lemma argLoop_relates (R : NeoCompiler -> NeoCompiler -> Prop) :
  (forall c, R c c) ->
  (forall a b c, R a b -> R b c -> R a c) ->
  (forall c, R c (nextToken c)) ->
  (forall v c, R c (emitPush v c)) ->
  (forall c, R c (fst (parseExpression c))) ->
  forall fuel c fc fv n, R c (fst (argLoop' fuel c fc fv n)).
Proof.
  intros Hrefl Htrans Hnext Hpush Hparse.
  assert (Hflush : forall (b : bool) v c,
            R c (if b then emitPush v c else c))
    by (intros [] v c; auto).
  induction fuel as [|fuel IH]; intros c fc fv n; simpl.
  - destruct (negb _); apply Hrefl.
  - destruct (negb _); [apply Hrefl|].
    assert (Hstep : forall c0,
      R c c0 ->
      R c (fst (match parseExpression (nextToken (nextToken c0)) with
                | (c1, Ok val0) =>
                  argLoop' fuel
                    (if isConst val0 then emitPush (val val0) c1 else c1)
                    false fv (n + 1)
                | (c1, Abort f) => (c1, Abort f)
                end))).
    { intros c0 H0.
      pose proof (Hparse (nextToken (nextToken c0))) as Hp.
      destruct (parseExpression (nextToken (nextToken c0)))
        as [c1 [v|f]]; simpl in Hp.
      - eapply Htrans; [|apply IH].
        eapply Htrans; [|apply Hflush].
        eapply Htrans; [|exact Hp].
        eapply Htrans; [|apply Hnext].
        eapply Htrans; [exact H0|apply Hnext].
      - simpl. eapply Htrans; [|exact Hp].
        eapply Htrans; [|apply Hnext].
        eapply Htrans; [exact H0|apply Hnext]. }
    destruct fc; [apply (Hstep (emitPush fv c)); apply Hpush
                 |apply (Hstep c); apply Hrefl].
Qed.

Lemma compile_relates (R : NeoCompiler -> NeoCompiler -> Prop) :
  (forall c, R c c) ->
  (forall a b c, R a b -> R b c -> R a c) ->
  (forall c, R c (nextToken c)) ->
  (forall v c, R c (emitPush v c)) ->
  (forall c, R c (fst (parseExpression c))) ->
  (forall method n fc fv c, R c (fst (emitMethod' method n fc fv c))) ->
  forall fuel c left, R c (fst (compile fuel c left)).
Proof.
  intros Hrefl Htrans Hnext Hpush Hparse Hemit fuel c left.
  pose proof (argLoop_relates R Hrefl Htrans Hnext Hpush Hparse) as Hloop.
  unfold parseMemberCallExpression, parseCallHead.
  destruct (isConst left); [apply Hrefl|].
  destruct (lastInst c) as [i|]; [|apply Hrefl].
  destruct (negb (Opcode_eqb (Op i) NeoOpGetGlobal)); [apply Hrefl|].
  destruct (negb (TokenType_eqb (TType (curToken (nextToken c)))
                    TokenIdent)); [apply Hnext|].
  destruct (negb (TokenType_eqb (TType (peekToken (nextToken c)))
                    TokenLParen)); [apply Hnext|].
  assert (Hargs : R c (fst (parseArguments' fuel (nextToken (nextToken c))))).
  { eapply Htrans; [apply Hnext|]. eapply Htrans; [apply Hnext|].
    unfold parseArguments.
    destruct (negb (TokenType_eqb
                      (TType (peekToken (nextToken (nextToken c))))
                      TokenRParen)); [|apply Hrefl].
    eapply Htrans; [apply Hnext|].
    pose proof (Hparse (nextToken (nextToken (nextToken c)))) as Hp.
    destruct (parseExpression (nextToken (nextToken (nextToken c))))
      as [c1 [v|f]]; simpl in Hp; [|exact Hp].
    eapply Htrans; [exact Hp|apply Hloop]. }
  destruct (parseArguments' fuel (nextToken (nextToken c)))
    as [c2 [[[n fc] fv]|f]]; simpl in Hargs; [|exact Hargs].
  destruct (negb (TokenType_eqb (TType (peekToken c2)) TokenRParen));
    [exact Hargs|].
  eapply Htrans; [exact Hargs|]. eapply Htrans; [apply Hnext|].
  apply Hemit.
Qed.

Lemma grows_refl c : grows c c.
Proof. split; reflexivity. Qed.

Lemma grows_trans a b c : grows a b -> grows b c -> grows a c.
Proof. intros [H1 H2] [H3 H4]. split; etrans; eassumption. Qed.

Lemma grows_emitPush v c : grows c (emitPush v c).
Proof. split; simpl; now apply prefix_app_r. Qed.

Lemma grows_emit op a c : grows c (emit op a c).
Proof. split; simpl; [now apply prefix_app_r|reflexivity]. Qed.

Lemma grows_emitMethod method n fc fv c :
  grows c (fst (emitMethod' method n fc fv c)).
Proof.
  assert (Hflush : forall b : bool, grows c (if b then emitPush fv c else c))
    by (intros []; [apply grows_emitPush|apply grows_refl]).
  unfold emitMethod.
  destruct (String.eqb method "get").
  { destruct (negb (n =? 1)); [apply grows_refl|].
    destruct (fc && _); simpl.
    - split; simpl; now apply prefix_app_r.
    - eapply grows_trans; [apply (Hflush fc)|apply grows_emit]. }
  destruct (String.eqb method "set").
  { destruct (negb (n =? 2)); simpl; [apply Hflush|].
    eapply grows_trans; [apply (Hflush fc)|apply grows_emit]. }
  destruct (String.eqb method "has").
  { destruct fc; destruct (negb (n =? 1)); simpl;
      try apply grows_refl; try apply grows_emitPush;
      try apply grows_emit.
    eapply grows_trans; [apply grows_emitPush|apply grows_emit]. }
  destruct (String.eqb method "del").
  { destruct fc; destruct (negb (n =? 1)); simpl;
      try apply grows_refl; try apply grows_emitPush;
      try apply grows_emit.
    eapply grows_trans; [apply grows_emitPush|apply grows_emit]. }
  apply grows_refl.
Qed.

Lemma index_Z_prefix {A : Type} (s t : list A) (i : Z) (x : A) :
  s `prefix_of` t -> index_Z s i = Some x -> index_Z t i = Some x.
Proof.
  intros [k ->]. unfold index_Z. destruct (i <? 0); [discriminate|].
  intros H. now apply lookup_app_l_Some.
Qed.

(** X11. The buffers are append-only across a call.  If the expression
    parser only extends the instruction buffer and the constant pool,
    then so does the compilation of a member call, however it ends:
    every instruction and every pool slot that was there is still there
    at the same index. *)
Theorem compile_append_only :
  (forall c0, grows c0 (fst (parseExpression c0))) ->
  forall (fuel : nat) (c : NeoCompiler) (left : compilationValue),
    grows c (fst (compile fuel c left))
    /\ (forall i v,
          index_Z (constants c) i = Some v ->
          index_Z (constants (fst (compile fuel c left))) i = Some v)
    /\ (forall i x,
          index_Z (instructions c) i = Some x ->
          index_Z (instructions (fst (compile fuel c left))) i = Some x).
Proof.
  intros Hparse fuel c left.
  assert (Hg : grows c (fst (compile fuel c left))).
  { apply (compile_relates grows);
      auto using grows_refl, grows_emitPush, grows_emitMethod.
    - apply grows_trans.
    - intros c0. split; simpl; reflexivity. }
  split; [exact Hg|]. destruct Hg as [Hi Hk].
  split; intros i v; now apply index_Z_prefix.
Qed.

Lemma operandOk_app pool k i :
  operandOk pool i = true -> operandOk (pool ++ k) i = true.
Proof.
  unfold operandOk. destruct (Op i); try reflexivity.
  - destruct (index_Z pool (Arg i)) as [v|] eqn:E; [|discriminate].
    now rewrite (index_Z_prefix pool (pool ++ k) _ v (prefix_app_r _ _ _
                   (reflexivity pool)) E).
  - destruct (index_Z pool (Arg i)) as [v|] eqn:E; [|discriminate].
    now rewrite (index_Z_prefix pool (pool ++ k) _ v (prefix_app_r _ _ _
                   (reflexivity pool)) E).
Qed.

Lemma operandsOk_emit op a c :
  operandsOk c = true ->
  operandOk (constants c) {| Op := op; Arg := a |} = true ->
  operandsOk (emit op a c) = true.
Proof.
  unfold operandsOk. simpl. intros H1 H2.
  rewrite forallb_app, H1. simpl. now rewrite H2.
Qed.

Lemma operandsOk_addConstant v c :
  operandsOk c = true -> operandsOk (fst (addConstant v c)) = true.
Proof.
  unfold operandsOk. simpl. rewrite !forallb_forall.
  intros H i Hi. apply operandOk_app. now apply H.
Qed.

Lemma operandsOk_emitPush v c :
  operandsOk c = true -> operandsOk (emitPush v c) = true.
Proof.
  intros H. unfold emitPush. simpl.
  apply (operandsOk_emit NeoOpPush _ (fst (addConstant v c))).
  - now apply operandsOk_addConstant.
  - unfold operandOk. simpl. now rewrite index_Z_fresh.
Qed.

Lemma operandsOk_emitMethod method n fc fv c :
  operandsOk c = true ->
  operandsOk (fst (emitMethod' method n fc fv c)) = true.
Proof.
  intros H.
  assert (Hflush : forall b : bool,
            operandsOk (if b then emitPush fv c else c) = true)
    by (intros []; [now apply operandsOk_emitPush|exact H]).
  unfold emitMethod.
  destruct (String.eqb method "get").
  { destruct (negb (n =? 1)); [exact H|].
    destruct fc; cbn [andb].
    - destruct (ValueType_eqb (VType fv) ValString) eqn:Hty; simpl.
      + apply (operandsOk_emit NeoOpMapGetConst _ (fst (addConstant fv c))).
        * now apply operandsOk_addConstant.
        * unfold operandOk. simpl. now rewrite index_Z_fresh.
      + apply operandsOk_emit; [now apply operandsOk_emitPush|reflexivity].
    - simpl. apply operandsOk_emit; [exact H|reflexivity]. }
  destruct (String.eqb method "set").
  { destruct (negb (n =? 2)); simpl; [apply Hflush|].
    apply operandsOk_emit; [apply Hflush|reflexivity]. }
  destruct (String.eqb method "has").
  { destruct fc; destruct (negb (n =? 1)); simpl;
      try (apply operandsOk_emit; [|reflexivity]);
      try (now apply operandsOk_emitPush); exact H. }
  destruct (String.eqb method "del").
  { destruct fc; destruct (negb (n =? 1)); simpl;
      try (apply operandsOk_emit; [|reflexivity]);
      try (now apply operandsOk_emitPush); exact H. }
  exact H.
Qed.

(** X12. The operands that the VM will trust are sound.  If in the
    buffer every push names a slot of the pool and every constant-key
    get names a slot that holds a string, and the expression parser
    keeps it so, then the compilation of a member call keeps it so,
    however it ends. *)
Theorem compile_operands_ok :
  (forall c0, operandsOk c0 = true ->
              operandsOk (fst (parseExpression c0)) = true) ->
  forall (fuel : nat) (c : NeoCompiler) (left : compilationValue),
    operandsOk c = true ->
    operandsOk (fst (compile fuel c left)) = true.
Proof.
  intros Hparse fuel c left.
  apply (compile_relates
           (fun a b => operandsOk a = true -> operandsOk b = true)); auto.
  - intros v c0. apply operandsOk_emitPush.
  - intros method n fc fv c0. apply operandsOk_emitMethod.
Qed.

End CompilerProperties.

(** * The fast path of [get] in both compilers *)

Section WalkProperties.

Variable walk : VMC.Node -> VMC.VMCompiler -> VMC.VMCompiler * option string.
Variable walkGeneral :
  VMC.Node -> string -> list VMC.Node -> VMC.VMCompiler ->
  VMC.VMCompiler * option string.

(** The fast path of [get] in the tree-walking compiler. *)
Lemma get_const_vm (m K : string) (c c1 : VMC.VMCompiler) :
  walk (VMC.Identifier m) c = (c1, None) ->
  exists c' k slot emitted,
    VMC.walk_MemberCallExpression walk walkGeneral
      (VMC.Identifier m) "get" [VMC.StringLiteral K] c = (c', None)
    /\ VMC.instructions c' = VMC.instructions c1 ++ emitted
    /\ emitted = [{| VMC.Op := VMC.OpMapGetConst; VMC.Arg := k |}]
    /\ index_Z (VMC.constants c') k = Some slot
    /\ VType slot = ValString /\ Str slot = K
    /\ VMC.constants c' = VMC.constants c1 ++ [slot]
    /\ VMC.countOp VMC.OpMapGetConst emitted = 1%nat
    /\ VMC.countOp VMC.OpMapGet emitted = 0%nat
    /\ VMC.countOp VMC.OpPush emitted = 0%nat.
Proof.
  intros Hw.
  exists (VMC.emit VMC.OpMapGetConst
            (Z.of_nat (length (VMC.constants c1)))
            (fst (VMC.addConstant (Value_Str ValString K) c1))),
         (Z.of_nat (length (VMC.constants c1))),
         (Value_Str ValString K),
         [{| VMC.Op := VMC.OpMapGetConst;
             VMC.Arg := Z.of_nat (length (VMC.constants c1)) |}].
  repeat split; try reflexivity.
  - unfold VMC.walk_MemberCallExpression. simpl. rewrite Hw. reflexivity.
  - simpl. apply index_Z_fresh.
Qed.

(** X13. The patch of the tree-walking compiler changes one shape of
    call only.  A member call that is not [get] with the single argument
    a string literal is compiled by the general path, as before the
    patch; and in the fast path an error of walking the subject is
    returned as it is, with nothing emitted after it. *)
Theorem walk_general_elsewhere
    (Object : VMC.Node) (Method : string) (Arguments : list VMC.Node)
    (c : VMC.VMCompiler) :
  ((forall lit, ~ (Method = "get" /\ Arguments = [VMC.StringLiteral lit])) ->
   VMC.walk_MemberCallExpression walk walkGeneral Object Method Arguments c
   = walkGeneral Object Method Arguments c)
  /\ (forall lit c1 err,
        walk Object c = (c1, Some err) ->
        VMC.walk_MemberCallExpression walk walkGeneral
          Object "get" [VMC.StringLiteral lit] c = (c1, Some err)).
Proof.
  split.
  - intros Hshape. unfold VMC.walk_MemberCallExpression.
    destruct (String.eqb_spec Method "get") as [->|Hm]; [|reflexivity].
    destruct (Z.eqb_spec (Z.of_nat (length Arguments)) 1) as [Hlen|Hlen];
      [|reflexivity].
    destruct Arguments as [|a [|b r]]; simpl in Hlen; try lia.
    destruct a; try reflexivity.
    exfalso. apply (Hshape value). split; reflexivity.
  - intros lit c1 err Hw. unfold VMC.walk_MemberCallExpression. simpl.
    now rewrite Hw.
Qed.

End WalkProperties.

(** C1. Compiling [m.get(K)], with [m] a bound map variable and [K] a
    string literal.  In the Neo compiler: the subject has been loaded by
    [NeoOpGetGlobal], the tokens are the method name [get] and an opening
    parenthesis, the parser returns the argument as the constant string
    [K], and the closing parenthesis follows.  In the tree-walking
    compiler: the node is a call of [get] on the identifier [m] with the
    one argument [StringLiteral K], and walking [m] succeeds.  In both
    the call succeeds and appends to the buffer left by its operands
    exactly one instruction, the constant-key get, whose operand is the
    index of a pool slot that holds the string [K]; so it emits one
    constant-key get, no generic get and no push. *)
Theorem get_by_const_fast_path :
  (forall (zeroType : ValueType) (TokenType_text : TokenType -> string)
          (parseExpression :
             NeoCompiler -> NeoCompiler * result compilationValue)
          (fuel : nat) (c c3 : NeoCompiler) (left : compilationValue)
          (g : Instruction) (v : Value) (K : string),
      isConst left = false ->
      last (instructions c) = Some g ->
      Op g = NeoOpGetGlobal ->
      peekToken c = {| TType := TokenIdent; Literal := "get" |} ->
      TType (peekToken (nextToken c)) = TokenLParen ->
      TType (peekToken (nextToken (nextToken c))) <> TokenRParen ->
      parseExpression (nextToken (nextToken (nextToken c)))
      = (c3, Ok {| isConst := true; val := v |}) ->
      VType v = ValString ->
      Str v = K ->
      TType (peekToken c3) = TokenRParen ->
      exists c' k slot emitted,
        parseMemberCallExpression zeroType TokenType_text parseExpression
          fuel c left = (c', Ok (on_stack zeroType))
        /\ instructions c' = instructions c3 ++ emitted
        /\ emitted = [{| Op := NeoOpMapGetConst; Arg := k |}]
        /\ index_Z (constants c') k = Some slot
        /\ VType slot = ValString /\ Str slot = K
        /\ constants c' = constants c3 ++ [slot]
        /\ countOp NeoOpMapGetConst emitted = 1%nat
        /\ countOp NeoOpMapGet emitted = 0%nat
        /\ countOp NeoOpPush emitted = 0%nat)
  /\ (forall (walk : VMC.Node -> VMC.VMCompiler ->
                     VMC.VMCompiler * option string)
             (walkGeneral : VMC.Node -> string -> list VMC.Node ->
                            VMC.VMCompiler -> VMC.VMCompiler * option string)
             (m K : string) (c c1 : VMC.VMCompiler),
        walk (VMC.Identifier m) c = (c1, None) ->
        exists c' k slot emitted,
          VMC.walk_MemberCallExpression walk walkGeneral
            (VMC.Identifier m) "get" [VMC.StringLiteral K] c = (c', None)
          /\ VMC.instructions c' = VMC.instructions c1 ++ emitted
          /\ emitted = [{| VMC.Op := VMC.OpMapGetConst; VMC.Arg := k |}]
          /\ index_Z (VMC.constants c') k = Some slot
          /\ VType slot = ValString /\ Str slot = K
          /\ VMC.constants c' = VMC.constants c1 ++ [slot]
          /\ VMC.countOp VMC.OpMapGetConst emitted = 1%nat
          /\ VMC.countOp VMC.OpMapGet emitted = 0%nat
          /\ VMC.countOp VMC.OpPush emitted = 0%nat).
Proof.
  split.
  - intros zeroType text parse fuel c c3 left g v K.
    apply get_const_neo.
  - intros walk walkGeneral m K c c1. apply get_const_vm.
Qed.

(** * The compilers run on calls *)

(** [m.get("K")] in the Neo compiler and in the tree-walking compiler. *)
Lemma get_by_const_fast_path_witness :
  (exists c' k,
     compileMemberCall 5 call_get_K subject_m = (c', Ok (on_stack ValNil))
     /\ instructions c'
        = instructions call_get_K ++ [{| Op := NeoOpMapGetConst; Arg := k |}]
     /\ (Str <$> index_Z (constants c') k) = Some "K")
  /\ (exists c' k,
        VMC.walk_MemberCallExpression walk_sample walkGeneral_sample
          (VMC.Identifier "m") "get" [VMC.StringLiteral "K"] emptyVMCompiler
        = (c', None)
        /\ VMC.instructions c'
           = [{| VMC.Op := VMC.OpOther 0; VMC.Arg := 0 |};
              {| VMC.Op := VMC.OpMapGetConst; VMC.Arg := k |}]
        /\ (Str <$> index_Z (VMC.constants c') k) = Some "K").
Proof.
  split.
  - destruct (proj1 get_by_const_fast_path ValNil kindName parse5 5%nat
                call_get_K (nextToken (nextToken (nextToken call_get_K)))
                subject_m {| Op := NeoOpGetGlobal; Arg := 0 |}
                (Value_Str ValString "K") "K"
                eq_refl eq_refl eq_refl eq_refl eq_refl
                ltac:(simpl; discriminate)
                eq_refl eq_refl eq_refl eq_refl)
      as (c' & k & slot & emitted & Hrun & Hins & -> & Hk & _ & HK & _).
    exists c', k. split; [exact Hrun|]. split; [exact Hins|].
    rewrite Hk. simpl. now rewrite HK.
  - destruct (proj2 get_by_const_fast_path walk_sample walkGeneral_sample
                "m" "K" emptyVMCompiler
                (fst (walk_sample (VMC.Identifier "m") emptyVMCompiler))
                eq_refl)
      as (c' & k & slot & emitted & Hrun & Hins & -> & Hk & _ & HK & _).
    exists c', k. split; [exact Hrun|]. split; [exact Hins|].
    rewrite Hk. simpl. now rewrite HK.
Defined.

(** [m.set("K", v)]: the literal key is pushed, [v] is loaded by the
    parser, one [NeoOpMapSet] closes the sequence. *)
Lemma set_materializes_both_witness :
  exists c',
    compileMemberCall 5 call_set_K_v subject_m = (c', Ok (on_stack ValNil))
    /\ instructions c'
       = [{| Op := NeoOpGetGlobal; Arg := 0 |};
          {| Op := NeoOpPush; Arg := 1 |};
          {| Op := NeoOpGetGlobal; Arg := 2 |};
          {| Op := NeoOpMapSet; Arg := 0 |}].
Proof.
  destruct (set_materializes_both ValNil kindName parse5 5%nat
              call_set_K_v
              (nextToken (nextToken (nextToken call_set_K_v)))
              (fst (parse5
                      (nextToken (nextToken
                         (emitPush (Value_Str ValString "K")
                            (nextToken (nextToken (nextToken call_set_K_v))))))))
              subject_m
              {| isConst := true; val := Value_Str ValString "K" |}
              (on_stack ValNil)
              {| Op := NeoOpGetGlobal; Arg := 0 |}
              eq_refl eq_refl eq_refl eq_refl eq_refl
              ltac:(simpl; discriminate)
              eq_refl eq_refl eq_refl eq_refl ltac:(lia))
    as (c4 & c' & _ & _ & _ & Hrun & Hins & _).
  exists c'. split; [exact Hrun|]. rewrite Hins. reflexivity.
Defined.

(** [m.set("K", v)] after ["K"], at the comma: the points run to the
    exit with ["K"] pushed and [v] loaded, and so does the loop of the
    compiler, given budget enough. *)
Lemma one_constant_in_flight_witness :
  exists fuel0, forall fuel,
    (fuel0 <= fuel)%nat ->
    exists c',
      argLoop parse5 fuel (firstArgument call_set_K_v)
        true (Value_Str ValString "K") 1
      = (c', Ok (2, false, Value_Str ValString "K"))
      /\ instructions c'
         = [{| Op := NeoOpGetGlobal; Arg := 0 |};
            {| Op := NeoOpPush; Arg := 1 |};
            {| Op := NeoOpGetGlobal; Arg := 2 |}].
Proof.
  edestruct (proj1 (proj2 (proj2 (proj2
               (one_constant_in_flight parse5
                  (firstArgument call_set_K_v)
                  true (Value_Str ValString "K") 1)))))
    as [fuel0 Hrun].
  - eapply rtc_l; [vm_compute; reflexivity|].
    eapply rtc_l; [vm_compute; reflexivity|].
    eapply rtc_l; [vm_compute; reflexivity|].
    eapply rtc_l; [vm_compute; reflexivity|].
    apply rtc_refl.
  - reflexivity.
  - exists fuel0. intros fuel Hfuel. eexists.
    split; [exact (Hrun fuel Hfuel)|reflexivity].
Defined.

(** A literal as the subject: the call fails at once, in the state in
    which it was entered.  [m.get("a".get("b"))]: the error is the one
    with which the parser returned on the argument of the call. *)
Lemma subject_error_witness :
  compileMemberCall 5 call_get_K subject_literal
  = (call_get_K, Abort (Error subject_msg))
  /\ exists c0,
       argumentOf parse5 call_nested c0
       /\ parse5 c0
          = (fst (compileMemberCall 5 call_nested subject_m),
             Abort (Error subject_msg)).
Proof.
  split.
  - exact (proj1 (subject_error ValNil kindName parse5 5%nat
                    call_get_K subject_literal) (or_introl eq_refl)).
  - assert (Hrun : parseMemberCallExpression ValNil kindName parse5 5
                     call_nested subject_m
                   = (fst (compileMemberCall 5 call_nested subject_m),
                      Abort (Error subject_msg)))
      by (vm_compute; reflexivity).
    destruct (proj2 (subject_error ValNil kindName parse5 5%nat
                       call_nested subject_m) _ Hrun)
      as [[_ [Hc|[i [Hl Hop]]]]|[_ [_ Hex]]].
    + discriminate Hc.
    + simpl in Hl. inversion Hl; subst. exfalso. apply Hop. reflexivity.
    + exact Hex.
Defined.

(** [m.get("a".get("b"))]: the subject [m] is a loaded variable, and the
    call fails with the subject error all the same, because the argument
    does. *)
Lemma subject_error_from_argument :
  ~ (snd (compileMemberCall 5 call_nested subject_m)
     = Abort (Error subject_msg)
     <-> (isConst subject_m = true
          \/ exists i, last (instructions call_nested) = Some i
                       /\ Op i <> NeoOpGetGlobal)).
Proof.
  intros [Hto _]. destruct (Hto eq_refl) as [Hc|[i [Hl Hop]]].
  - discriminate Hc.
  - simpl in Hl. inversion Hl; subst. apply Hop. reflexivity.
Qed.

(** [m.get()], [m.get("a","b")], [m.set("a")] and [m.foo(1)]. *)
Lemma method_dispatch_witness :
  snd (compileMemberCall 5 call_get_none subject_m)
  = Abort (Error "get expects 1 argument")
  /\ snd (compileMemberCall 5 call_get_a_b subject_m)
     = Abort (Error "get expects 1 argument")
  /\ snd (compileMemberCall 5 call_set_a subject_m)
     = Abort (Error "set expects 2 arguments")
  /\ snd (compileMemberCall 5 call_foo_1 subject_m)
     = Abort (Error "unknown map method: foo").
Proof.
  split; [|split; [|split]].
  - refine (proj1 (method_dispatch ValNil kindName parse5 5%nat
                     call_get_none
                     (fst (parseCallHead ValNil kindName parse5 5
                             call_get_none subject_m))
                     subject_m "get" 0 false (Value_Type ValNil) _) _ _);
      [vm_compute; reflexivity | reflexivity | discriminate].
  - refine (proj1 (method_dispatch ValNil kindName parse5 5%nat
                     call_get_a_b
                     (fst (parseCallHead ValNil kindName parse5 5
                             call_get_a_b subject_m))
                     subject_m "get" 2 false (Value_Str ValString "a") _) _ _);
      [vm_compute; reflexivity | reflexivity | discriminate].
  - refine (proj1 (proj2 (method_dispatch ValNil kindName parse5 5%nat
                     call_set_a
                     (fst (parseCallHead ValNil kindName parse5 5
                             call_set_a subject_m))
                     subject_m "set" 1 true (Value_Str ValString "a") _)) _ _);
      [vm_compute; reflexivity | reflexivity | discriminate].
  - refine (proj1 (proj2 (proj2 (proj2 (proj2
              (method_dispatch ValNil kindName parse5 5%nat
                 call_foo_1
                 (fst (parseCallHead ValNil kindName parse5 5
                         call_foo_1 subject_m))
                 subject_m "foo" 1 true (Value_Num ValInt 1) _)))))
              _ _ _ _);
      [vm_compute; reflexivity | discriminate ..].
Defined.

(** [m] is loaded: the buffer is not empty and its last slot is read. *)
Lemma lastInst_read_in_bounds_witness :
  exists i, lastInst call_get_K = Some i
            /\ last (instructions call_get_K) = Some i.
Proof.
  exact (proj1 (proj2 (lastInst_read_in_bounds ValNil kindName parse5 5%nat
                         call_get_K subject_m
                         (fun _ H => eq_ind (instructions call_get_K)
                                       (fun l => match l with
                                                 | [] => False
                                                 | _ :: _ => True
                                                 end) I [] H)
                         eq_refl))).
Defined.

(** [m.set("a")] ends in the arity error with the push of ["a"] in the
    buffer; so would [has] entered with a pending constant and no
    argument counted. *)
Lemma arity_error_after_push_witness :
  (exists c',
     compileMemberCall 5 call_set_a subject_m
     = (c', Abort (Error "set expects 2 arguments"))
     /\ instructions c'
        = [{| Op := NeoOpGetGlobal; Arg := 0 |};
           {| Op := NeoOpPush; Arg := 1 |}])
  /\ (exists c',
        emitMethod ValNil "has" 0 true (Value_Str ValString "a") call_get_none
        = (c', Abort (Error "has expects 1 argument"))
        /\ instructions c' <> instructions call_get_none).
Proof.
  split.
  - assert (Hbad : "set" = "set" /\ 1 <> 2
                   \/ ("set" = "has" \/ "set" = "del") /\ 1 <> 1)
      by (left; split; [reflexivity|lia]).
    destruct (arity_error_after_push ValNil kindName parse5
                "set" 1 (Value_Str ValString "a")
                (nextToken (nextToken (nextToken (nextToken call_set_a))))
                Hbad)
      as (c' & msg & _ & Hmsg & Hins & _ & _ & Hrun).
    exists c'. split.
    + rewrite Hmsg in Hrun. apply Hrun. vm_compute. reflexivity.
    + rewrite Hins. reflexivity.
  - assert (Hbad : "has" = "set" /\ 0 <> 2
                   \/ ("has" = "has" \/ "has" = "del") /\ 0 <> 1)
      by (right; split; [left; reflexivity|lia]).
    destruct (arity_error_after_push ValNil kindName parse5
                "has" 0 (Value_Str ValString "a") call_get_none Hbad)
      as (c' & msg & Hrun & Hmsg & _ & _ & Hne & _).
    exists c'. split; [|exact Hne].
    rewrite Hmsg in Hrun. exact Hrun.
Defined.

(** * From the compilers to the VMs *)

Section CompileThenRun.

Variable FromInterface : any -> Value.
Variable boolToUint64 : bool -> Z.

(** X14. The fast path of the Neo compiler, run.  For [m.get(K)]
    compiled as in C1, the last instruction of the buffer is the
    constant-key get, and the Neo VM's handler, given the operand of that
    instruction, the pool of the compiler and a stack with a map in slot
    [sp], stores in that slot the element of the map under [K],
    converted ([Nil] when [K] is not in the map), and goes on. *)
Theorem neo_get_runs
    (zeroType : ValueType) (TokenType_text : TokenType -> string)
    (parseExpression : NeoCompiler -> NeoCompiler * result compilationValue)
    (fuel : nat) (c c3 : NeoCompiler) (left : compilationValue)
    (g : Instruction) (v : Value) (K : string)
    (beyond : Z -> Value) (stack : list Value) (sp : Z)
    (obj : Value) (m : gmap string any) :
  isConst left = false ->
  last (instructions c) = Some g ->
  Op g = NeoOpGetGlobal ->
  peekToken c = {| TType := TokenIdent; Literal := "get" |} ->
  TType (peekToken (nextToken c)) = TokenLParen ->
  TType (peekToken (nextToken (nextToken c))) <> TokenRParen ->
  parseExpression (nextToken (nextToken (nextToken c)))
  = (c3, Ok {| isConst := true; val := v |}) ->
  VType v = ValString ->
  Str v = K ->
  TType (peekToken c3) = TokenRParen ->
  index_Z stack sp = Some obj ->
  VType obj = ValMap ->
  Ptr obj = AnyMap m ->
  exists c' k,
    parseMemberCallExpression zeroType TokenType_text parseExpression
      fuel c left = (c', Ok (on_stack zeroType))
    /\ last (instructions c') = Some {| Op := NeoOpMapGetConst; Arg := k |}
    /\ VMLoop.exec_NeoOpMapGetConst FromInterface boolToUint64
         (constants c') beyond stack sp k
       = (<[Z.to_nat sp :=
              VMLoop.plain_switch FromInterface boolToUint64
                (map_index m K)]> stack,
          Continue).
Proof.
  intros Hc Hl Hop Hm Hlp Hnr Hparse Hty HK Hrp Hobj Hmap Hptr.
  destruct (get_const_neo zeroType TokenType_text parseExpression
              fuel c left g c3 v K Hc Hl Hop Hm Hlp Hnr Hparse Hty HK Hrp)
    as (c' & k & slot & emitted & Hrun & Hins & -> & Hk & _ & Hslot & _).
  exists c', k. split; [exact Hrun|]. split.
  - rewrite Hins. apply last_snoc.
  - destruct (lookup_both FromInterface boolToUint64
                (constants c') beyond stack sp k obj m slot
                Hobj Hmap Hptr Hk) as [_ Hn].
    rewrite Hn, Hslot. reflexivity.
Qed.

(** X15. The fast path of the tree-walking compiler, run: the same for
    the plain VM's handler and the pool of that compiler. *)
Theorem vm_get_runs
    (walk : VMC.Node -> VMC.VMCompiler -> VMC.VMCompiler * option string)
    (walkGeneral : VMC.Node -> string -> list VMC.Node ->
                   VMC.VMCompiler -> VMC.VMCompiler * option string)
    (name K : string) (c c1 : VMC.VMCompiler)
    (stack : list Value) (sp : Z) (obj : Value) (m : gmap string any) :
  walk (VMC.Identifier name) c = (c1, None) ->
  index_Z stack sp = Some obj ->
  VType obj = ValMap ->
  Ptr obj = AnyMap m ->
  exists c' k,
    VMC.walk_MemberCallExpression walk walkGeneral
      (VMC.Identifier name) "get" [VMC.StringLiteral K] c = (c', None)
    /\ last (VMC.instructions c')
       = Some {| VMC.Op := VMC.OpMapGetConst; VMC.Arg := k |}
    /\ VMLoop.exec_OpMapGetConst FromInterface boolToUint64
         (VMC.constants c') stack sp k
       = (<[Z.to_nat sp :=
              VMLoop.plain_switch FromInterface boolToUint64
                (map_index m K)]> stack,
          Continue).
Proof.
  intros Hw Hobj Hmap Hptr.
  destruct (get_const_vm walk walkGeneral name K c c1 Hw)
    as (c' & k & slot & emitted & Hrun & Hins & -> & Hk & _ & Hslot & _).
  exists c', k. split; [exact Hrun|]. split.
  - rewrite Hins. apply last_snoc.
  - destruct (lookup_both FromInterface boolToUint64
                (VMC.constants c') (fun _ => obj) stack sp k obj m slot
                Hobj Hmap Hptr Hk) as [Hp _].
    rewrite Hp, Hslot. reflexivity.
Qed.

End CompileThenRun.

(** * Properties of the patch script *)

Import Patch.

Lemma prefix_app (x : string) : forall s t,
  String.prefix x s = true -> String.prefix x (s +:+ t) = true.
Proof.
  induction x as [|a x IH]; intros s t.
  - intros _. now destruct (s +:+ t).
  - destruct s as [|b s]; simpl; [discriminate|].
    destruct (Ascii.ascii_dec a b); [apply IH|discriminate].
Qed.

Lemma prefix_refl (x : string) : String.prefix x x = true.
Proof.
  induction x as [|a x IH]; [reflexivity|]. simpl.
  destruct (Ascii.ascii_dec a a); [exact IH|contradiction].
Qed.

Lemma prefix_empty (x : string) : String.prefix x "" = true -> x = ""%string.
Proof. destruct x; [reflexivity|discriminate]. Qed.

Lemma occurs_app_l (x s t : string) :
  occurs x s = true -> occurs x (s +:+ t) = true.
Proof.
  induction s as [|a s IH]; simpl.
  - rewrite orb_false_r. intros H. apply prefix_empty in H. subst x.
    destruct t; reflexivity.
  - intros H. apply orb_true_iff in H. apply orb_true_iff.
    destruct H as [H|H]; [left|right; auto].
    exact (prefix_app x (String a s) t H).
Qed.

Lemma occurs_app_r (x s t : string) :
  occurs x t = true -> occurs x (s +:+ t) = true.
Proof.
  intros H. induction s as [|a s IH]; [exact H|].
  simpl. rewrite IH. apply orb_true_r.
Qed.

Lemma occurs_refl (x : string) : occurs x x = true.
Proof.
  destruct x; [reflexivity|]. cbn [occurs]. now rewrite prefix_refl.
Qed.

(** Where [old] occurs, the result of the replacement has [new] in it. *)
Lemma replace_scan_occurs (old new x : string) :
  old <> ""%string ->
  occurs x new = true ->
  forall s, occurs old s = true ->
            occurs x (replace_scan old new 0 s) = true.
Proof.
  intros Hold Hx. induction s as [|a s IH].
  - simpl. rewrite orb_false_r. intros H. apply prefix_empty in H.
    contradiction.
  - intros H. cbn [replace_scan].
    destruct (String.prefix old (String a s)) eqn:Hp.
    + now apply occurs_app_l.
    + cbn [occurs] in H. rewrite Hp in H. simpl in H.
      cbn [occurs]. rewrite (IH H). apply orb_true_r.
Qed.

Lemma replace_nonempty (old new s : string) :
  old <> ""%string -> replace old new s = replace_scan old new 0 s.
Proof. destruct old; [contradiction|reflexivity]. Qed.

Lemma insert_handler_occurs (is_neo : bool) (content x : string) :
  occurs (targetOf is_neo) content = true ->
  occurs x (insertedText is_neo) = true ->
  occurs x (insert_handler is_neo content) = true.
Proof.
  intros Ht Hx. unfold insert_handler.
  destruct is_neo.
  - change ("case " +:+ "NeoOp" +:+ "MapDel:") with (targetOf true).
    rewrite Ht, replace_nonempty by discriminate.
    apply replace_scan_occurs; [discriminate|exact Hx|exact Ht].
  - change ("case " +:+ "Op" +:+ "MapDel:") with (targetOf false).
    rewrite Ht, replace_nonempty by discriminate.
    apply replace_scan_occurs; [discriminate|exact Hx|exact Ht].
Qed.

Lemma insert_handler_absent (is_neo : bool) (content : string) :
  occurs (targetOf is_neo) content = false ->
  insert_handler is_neo content = content.
Proof.
  intros Ht. unfold insert_handler. destruct is_neo.
  - change ("case " +:+ "NeoOp" +:+ "MapDel:") with (targetOf true).
    now rewrite Ht.
  - change ("case " +:+ "Op" +:+ "MapDel:") with (targetOf false).
    now rewrite Ht.
Qed.

Lemma marker_inserted (is_neo : bool) :
  occurs marker (insertedText is_neo) = true.
Proof. destruct is_neo; vm_compute; reflexivity. Qed.

Lemma target_inserted (is_neo : bool) :
  occurs (targetOf is_neo) (insertedText is_neo) = true.
Proof. destruct is_neo; vm_compute; reflexivity. Qed.

(** X16. Run again on the text it has written, the function does not
    write a second handler: if the text read had the [case ...MapDel:]
    of the VM, the text written carries the marker and the second run
    returns without writing; if it had not, the text written is the text
    read, and so is the text a second run writes. *)
Theorem add_mgetc_idempotent
    (is_neo : bool) (content written : string) :
  add_mgetc_to_vm_text is_neo content = Some written ->
  (occurs (targetOf is_neo) content = true ->
   add_mgetc_to_vm_text is_neo written = None)
  /\ (occurs (targetOf is_neo) content = false ->
      written = content
      /\ add_mgetc_to_vm_text is_neo written = Some written).
Proof.
  unfold add_mgetc_to_vm_text. fold marker.
  destruct (occurs marker content) eqn:Hm; [discriminate|].
  intros H; inversion H; subst written. clear H. split.
  - intros Ht.
    now rewrite (insert_handler_occurs is_neo content marker Ht
                   (marker_inserted is_neo)).
  - intros Ht. rewrite (insert_handler_absent _ _ Ht).
    split; [reflexivity|].
    now rewrite Hm, (insert_handler_absent _ _ Ht).
Qed.

(** X18. What the function writes.  For a text that carries the marker
    it writes nothing.  For a text without the marker that has the
    [case ...MapDel:] of the VM in it, the text written has the handler
    text in it, followed by that [case], which is thus kept; it carries
    the marker and differs from the text read.  For a text without the
    marker and without that [case], the text written is the text
    read. *)
Theorem add_mgetc_effect (is_neo : bool) (content : string) :
  (occurs marker content = true ->
   add_mgetc_to_vm_text is_neo content = None)
  /\ (occurs marker content = false ->
      occurs (targetOf is_neo) content = true ->
      exists written,
        add_mgetc_to_vm_text is_neo content = Some written
        /\ occurs (insertedText is_neo) written = true
        /\ occurs marker written = true
        /\ occurs (targetOf is_neo) written = true
        /\ written <> content)
  /\ (occurs marker content = false ->
      occurs (targetOf is_neo) content = false ->
      add_mgetc_to_vm_text is_neo content = Some content).
Proof.
  unfold add_mgetc_to_vm_text. fold marker.
  split; [|split].
  - intros ->. reflexivity.
  - intros Hm Ht. rewrite Hm. exists (insert_handler is_neo content).
    split; [reflexivity|].
    split; [apply insert_handler_occurs; [exact Ht|apply occurs_refl]|].
    split; [apply insert_handler_occurs; [exact Ht|apply marker_inserted]|].
    split; [apply insert_handler_occurs; [exact Ht|apply target_inserted]|].
    intros E.
    pose proof (insert_handler_occurs is_neo content marker Ht
                  (marker_inserted is_neo)) as Hc.
    rewrite E, Hm in Hc. discriminate.
  - intros Hm Ht. now rewrite Hm, (insert_handler_absent _ _ Ht).
Qed.

Lemma replace_scan_absent (old new : string) :
  forall s, occurs old s = false -> replace_scan old new 0 s = s.
Proof.
  induction s as [|a s IH]; [reflexivity|].
  cbn [occurs replace_scan]. intros H.
  apply orb_false_iff in H. destruct H as [Hp Hs].
  rewrite Hp. f_equal. now apply IH.
Qed.

(** X20. A replacement in a text without an occurrence of [old] gives
    the text back; so the test [target in content] of line 44 makes no
    difference: the content written is in every case the content read
    with each [case ...MapDel:] replaced by the handler text and that
    [case]. *)
Theorem replace_absent_unchanged (old new s : string) :
  occurs old s = false ->
  replace old new s = s
  /\ forall is_neo content,
       insert_handler is_neo content
       = replace (targetOf is_neo) (insertedText is_neo) content.
Proof.
  intros Habs. split.
  - destruct old as [|a old].
    + destruct s; discriminate Habs.
    + now apply replace_scan_absent.
  - intros is_neo content. unfold insert_handler.
    destruct is_neo.
    + change ("case " +:+ "NeoOp" +:+ "MapDel:") with (targetOf true).
      destruct (occurs (targetOf true) content) eqn:Ht; [reflexivity|].
      rewrite replace_nonempty by discriminate.
      symmetry. now apply replace_scan_absent.
    + change ("case " +:+ "Op" +:+ "MapDel:") with (targetOf false).
      destruct (occurs (targetOf false) content) eqn:Ht; [reflexivity|].
      rewrite replace_nonempty by discriminate.
      symmetry. now apply replace_scan_absent.
Qed.

(** * The further properties run on inputs *)

Local Abbreviation plainH :=
  (VMLoop.exec_OpMapGetConst FromInterface_sample boolToUint64_sample).
Local Abbreviation neoH :=
  (VMLoop.exec_NeoOpMapGetConst FromInterface_sample boolToUint64_sample).

(** The map in slot 0, a string beneath it in slot 1: slot 1 is kept. *)
Lemma MapGetConst_in_place_witness :
  index_Z (fst (plainH pool_a_b
                  [Value_Map map_a; Value_Str ValString "s"] 0 0)) 1
  = Some (Value_Str ValString "s").
Proof.
  exact (proj1 (proj2 (proj2 (MapGetConst_in_place
                  FromInterface_sample boolToUint64_sample
                  pool_a_b nothing_beyond
                  [Value_Map map_a; Value_Str ValString "s"] 0 0))
                 1 ltac:(lia))).
Defined.

(** A map and a pooled key: both handlers go on.  A string in the
    slot: the Neo handler does not go on and leaves the stack. *)
Lemma MapGetConst_continue_iff_witness :
  snd (plainH pool_a_b [Value_Map map_a] 0 1) = Continue
  /\ snd (neoH pool_a_b nothing_beyond [Value_Map map_a] 0 1) = Continue
  /\ fst (neoH pool_a_b nothing_beyond [Value_Str ValString "s"] 0 1)
     = [Value_Str ValString "s"].
Proof.
  split; [|split].
  - apply (proj1 (MapGetConst_continue_iff
                    FromInterface_sample boolToUint64_sample
                    pool_a_b nothing_beyond [Value_Map map_a] 0 1)).
    exists (Value_Map map_a), map_a, (Value_Str ValString "b").
    split; [reflexivity|]. split; [reflexivity|].
    split; reflexivity.
  - apply (proj1 (proj1 (proj2 (MapGetConst_continue_iff
                    FromInterface_sample boolToUint64_sample
                    pool_a_b nothing_beyond [Value_Map map_a] 0 1))
                   (Value_Str ValString "b") eq_refl)).
    exists (Value_Map map_a), map_a.
    split; [reflexivity|]. split; reflexivity.
  - apply (proj2 (proj2 (proj1 (proj2 (MapGetConst_continue_iff
                    FromInterface_sample boolToUint64_sample
                    pool_a_b nothing_beyond
                    [Value_Str ValString "s"] 0 1))
                   (Value_Str ValString "b") eq_refl))).
    simpl. discriminate.
Defined.

(** Storing under ["b"] does not change what is found under ["a"]. *)
Lemma MapGetConst_other_keys_witness :
  plainH pool_a_b
    (<[Z.to_nat 0 := Value_Map (<["b" := AnyBool true]> map_a)]>
       [Value_Type ValNil]) 0 0
  = plainH pool_a_b (<[Z.to_nat 0 := Value_Map map_a]> [Value_Type ValNil])
      0 0.
Proof.
  refine (proj1 (MapGetConst_other_keys
                   FromInterface_sample boolToUint64_sample
                   pool_a_b nothing_beyond [Value_Type ValNil] 0 0
                   (Value_Type ValNil) (Value_Str ValString "a")
                   map_a "b" (AnyBool true) _ _ _));
    [reflexivity | reflexivity | discriminate].
Defined.

(** ["a"] bound to nil reads as [Nil]. *)
Lemma MapGetConst_nil_is_absent_witness :
  plainH pool_a_b
    (<[Z.to_nat 0 := Value_Map (<["a" := AnyNil]> map_a)]>
       [Value_Type ValNil]) 0 0
  = (<[Z.to_nat 0 := Value_Type ValNil]> [Value_Type ValNil], Continue).
Proof.
  refine (proj1 (MapGetConst_nil_is_absent
                   FromInterface_sample boolToUint64_sample
                   pool_a_b nothing_beyond [Value_Type ValNil] 0 0
                   (Value_Type ValNil) (Value_Str ValString "a")
                   map_a _ _));
    reflexivity.
Defined.

(** The element -1 is stored as 2^64 - 1. *)
Lemma integer_elements_stored_witness :
  Num (VMLoop.plain_switch FromInterface_sample boolToUint64_sample
         (AnyInt64 (-1))) = -1 + 2 ^ 64.
Proof.
  apply (proj1 (proj2 (proj2 (proj2 (proj2 (proj2 (proj2
           (integer_elements_stored
              FromInterface_sample boolToUint64_sample (-1))))))))).
  lia.
Defined.

(** [m.get(k)]: [k] is loaded by the parser, one [NeoOpMapGet] follows. *)
Lemma get_generic_path_witness :
  exists c',
    compileMemberCall 5 call_get_k subject_m = (c', Ok (on_stack ValNil))
    /\ instructions c'
       = [{| Op := NeoOpGetGlobal; Arg := 0 |};
          {| Op := NeoOpGetGlobal; Arg := 1 |};
          {| Op := NeoOpMapGet; Arg := 0 |}].
Proof.
  destruct (get_generic_path ValNil kindName parse5 5%nat call_get_k
              (fst (parse5 (nextToken (nextToken (nextToken call_get_k)))))
              subject_m (on_stack ValNil)
              {| Op := NeoOpGetGlobal; Arg := 0 |})
    as (c' & Hrun & Hins & _);
    try reflexivity.
  - simpl. discriminate.
  - left. reflexivity.
  - exists c'. split; [exact Hrun|]. rewrite Hins. reflexivity.
Defined.

(** [m.has("K")]: the literal is pushed, one [NeoOpMapHas] follows. *)
Lemma has_del_path_witness :
  exists c',
    compileMemberCall 5 call_has_K subject_m = (c', Ok (on_stack ValNil))
    /\ instructions c'
       = [{| Op := NeoOpGetGlobal; Arg := 0 |};
          {| Op := NeoOpPush; Arg := 1 |};
          {| Op := NeoOpMapHas; Arg := 0 |}].
Proof.
  destruct (has_del_path ValNil kindName parse5 5%nat call_has_K
              (nextToken (nextToken (nextToken call_has_K)))
              subject_m
              {| isConst := true; val := Value_Str ValString "K" |}
              {| Op := NeoOpGetGlobal; Arg := 0 |} "has" NeoOpMapHas)
    as (c' & Hrun & Hins & _);
    try reflexivity.
  - left. split; reflexivity.
  - simpl. discriminate.
  - exists c'. split; [exact Hrun|]. rewrite Hins. reflexivity.
Defined.

(** [m.1], [m.get "K"] and [m.get("K"] with nothing after it. *)
Lemma head_syntax_errors_witness :
  snd (compileMemberCall 5 call_no_method subject_m)
  = Abort (Error "expected method name after '.'")
  /\ snd (compileMemberCall 5 call_no_lparen subject_m)
     = Abort (Error "expected '(' after method name")
  /\ snd (compileMemberCall 5 call_no_rparen subject_m)
     = Abort (Error "expected ')', got EOF").
Proof.
  split; [|split].
  - refine (f_equal snd
              (proj1 (head_syntax_errors ValNil kindName parse5 5%nat
                        call_no_method subject_m
                        {| Op := NeoOpGetGlobal; Arg := 0 |}
                        eq_refl eq_refl eq_refl) _)).
    simpl. discriminate.
  - refine (f_equal snd
              (proj1 (proj2 (head_syntax_errors ValNil kindName parse5 5%nat
                               call_no_lparen subject_m
                               {| Op := NeoOpGetGlobal; Arg := 0 |}
                               eq_refl eq_refl eq_refl)) _ _)).
    + reflexivity.
    + simpl. discriminate.
  - refine (f_equal snd
              (proj1 (proj2 (proj2
                 (head_syntax_errors ValNil kindName parse5 5%nat
                    call_no_rparen subject_m
                    {| Op := NeoOpGetGlobal; Arg := 0 |}
                    eq_refl eq_refl eq_refl)))
                 (nextToken (nextToken (nextToken call_no_rparen)))
                 1 true (Value_Str ValString "K") _ _ _ _)).
    + reflexivity.
    + reflexivity.
    + vm_compute. reflexivity.
    + simpl. discriminate.
Defined.

(** [m.has()]: the error, and the buffer as the subject left it. *)
Lemma arity_error_clean_witness :
  exists c',
    compileMemberCall 5 call_has_none subject_m
    = (c', Abort (Error "has expects 1 argument"))
    /\ instructions c' = instructions call_has_none.
Proof.
  exists (nextToken (nextToken (nextToken call_has_none))).
  split; [|reflexivity].
  refine (arity_error_clean ValNil kindName parse5 5%nat call_has_none
            (nextToken (nextToken (nextToken call_has_none)))
            subject_m "has" 0 false (Value_Type ValNil) _ _ _).
  - vm_compute. reflexivity.
  - right. left. reflexivity.
  - lia.
Defined.

(** After [m.get("K")] the current token is the closing parenthesis. *)
Lemma compile_ok_position_witness :
  TType (curToken (fst (compileMemberCall 5 call_get_K subject_m)))
  = TokenRParen.
Proof.
  refine (proj1 (compile_ok_position ValNil kindName parse5 5%nat
                   call_get_K
                   (fst (compileMemberCall 5 call_get_K subject_m))
                   subject_m (on_stack ValNil) _)).
  vm_compute. reflexivity.
Defined.

(** The parser of one operand only extends the buffers, and keeps the
    operands sound. *)
Lemma parse1_grows (c : NeoCompiler) : grows c (fst (parse1 c)).
Proof.
  unfold parse1, parseOperand.
  destruct (TType (curToken c)); simpl;
    try (split; reflexivity).
  split; simpl; now apply prefix_app_r.
Qed.

Lemma parse1_operandsOk (c : NeoCompiler) :
  operandsOk c = true -> operandsOk (fst (parse1 c)) = true.
Proof.
  intros H. unfold parse1, parseOperand.
  destruct (TType (curToken c)); simpl; try exact H.
  apply (operandsOk_emit NeoOpGetGlobal _
           (fst (addConstant (Value_Str ValString (Literal (curToken c))) c)));
    [now apply operandsOk_addConstant|reflexivity].
Qed.

(** The subject [m] stays at index 0 of the buffer and of the pool
    across [m.set("K", v)]. *)
Lemma compile_append_only_witness :
  index_Z (instructions
             (fst (parseMemberCallExpression ValNil kindName parse1 5
                     call_set_K_v subject_m))) 0
  = Some {| Op := NeoOpGetGlobal; Arg := 0 |}.
Proof.
  refine (proj2 (proj2 (compile_append_only ValNil kindName parse1
                          parse1_grows 5%nat call_set_K_v subject_m))
            0 _ _).
  reflexivity.
Defined.

(** The buffer of [m.get("K")] has sound operands when the call is
    over. *)
Lemma compile_operands_ok_witness :
  operandsOk (fst (parseMemberCallExpression ValNil kindName parse1 5
                     call_get_K subject_m)) = true.
Proof.
  refine (compile_operands_ok ValNil kindName parse1
            parse1_operandsOk 5%nat call_get_K subject_m _).
  reflexivity.
Defined.

(** [m.has("K")] in the tree-walking compiler goes the general way. *)
Lemma walk_general_elsewhere_witness :
  VMC.walk_MemberCallExpression walk_sample walkGeneral_sample
    (VMC.Identifier "m") "has" [VMC.StringLiteral "K"] emptyVMCompiler
  = walkGeneral_sample (VMC.Identifier "m") "has" [VMC.StringLiteral "K"]
      emptyVMCompiler.
Proof.
  refine (proj1 (walk_general_elsewhere walk_sample walkGeneral_sample
                   (VMC.Identifier "m") "has" [VMC.StringLiteral "K"]
                   emptyVMCompiler) _).
  intros lit [H _]. discriminate H.
Defined.

(** [m.get("a")] compiled by the Neo compiler and run on the map
    [{"a": 7}]. *)
Lemma neo_get_runs_witness :
  exists c' k,
    compileMemberCall 5
      (afterSubject "m" [ident "get"; lparen; str "a"; rparen]) subject_m
    = (c', Ok (on_stack ValNil))
    /\ neoH (constants c') nothing_beyond [Value_Map map_a] 0 k
       = ([Value_Num ValInt 7], Continue).
Proof.
  destruct (neo_get_runs FromInterface_sample boolToUint64_sample
              ValNil kindName parse5 5%nat
              (afterSubject "m" [ident "get"; lparen; str "a"; rparen])
              (nextToken (nextToken (nextToken
                 (afterSubject "m" [ident "get"; lparen; str "a"; rparen]))))
              subject_m {| Op := NeoOpGetGlobal; Arg := 0 |}
              (Value_Str ValString "a") "a"
              nothing_beyond [Value_Map map_a] 0 (Value_Map map_a) map_a)
    as (c' & k & Hrun & _ & Hexec);
    try reflexivity.
  - simpl. discriminate.
  - exists c', k. split; [exact Hrun|]. rewrite Hexec. reflexivity.
Defined.

(** The same for the tree-walking compiler and the plain VM. *)
Lemma vm_get_runs_witness :
  exists c' k,
    VMC.walk_MemberCallExpression walk_sample walkGeneral_sample
      (VMC.Identifier "m") "get" [VMC.StringLiteral "a"] emptyVMCompiler
    = (c', None)
    /\ plainH (VMC.constants c') [Value_Map map_a] 0 k
       = ([Value_Num ValInt 7], Continue).
Proof.
  destruct (vm_get_runs FromInterface_sample boolToUint64_sample
              walk_sample walkGeneral_sample "m" "a" emptyVMCompiler
              (fst (walk_sample (VMC.Identifier "m") emptyVMCompiler))
              [Value_Map map_a] 0 (Value_Map map_a) map_a)
    as (c' & k & Hrun & _ & Hexec);
    try reflexivity.
  exists c', k. split; [exact Hrun|]. rewrite Hexec. reflexivity.
Defined.

(** [vm.go] with its [case OpMapDel:]: the text written carries the
    marker, and run on that text the function writes nothing. *)
Lemma add_mgetc_idempotent_witness :
  add_mgetc_to_vm_text false (insert_handler false vm_go) = None.
Proof.
  refine (proj1 (add_mgetc_idempotent false vm_go
                   (insert_handler false vm_go) _) _).
  - vm_compute. reflexivity.
  - vm_compute. reflexivity.
Defined.

(** [vm.go] with its [case OpMapDel:] gets the handler and the marker. *)
Lemma add_mgetc_effect_witness :
  exists written,
    add_mgetc_to_vm_text false vm_go = Some written
    /\ occurs marker written = true
    /\ written <> vm_go.
Proof.
  destruct (proj1 (proj2 (add_mgetc_effect false vm_go)))
    as (written & Hrun & _ & Hm & _ & Hne).
  - vm_compute. reflexivity.
  - vm_compute. reflexivity.
  - exists written. split; [exact Hrun|]. split; [exact Hm|exact Hne].
Defined.

(** A text without the target comes back from the replacement. *)
Lemma replace_absent_unchanged_witness :
  replace "case OpMapDel:" (insertedText false) neoex_vm_go = neoex_vm_go.
Proof.
  apply (proj1 (replace_absent_unchanged "case OpMapDel:"
                  (insertedText false) neoex_vm_go
                  ltac:(vm_compute; reflexivity))).
Defined.
